(** * rt_translator: segmentation loop, energy detector, speech queue and
      translation adapter of [rt_translator.py]

    A shallow embedding of the functions of [rt_translator.py] that decide
    when a phrase is closed, what is handed to the translator and what is put
    on the speech queue.

    Modelling conventions.
    - Python [str] is a list of Unicode code points ([str := list N]);
      [bytes] is a list of [byte].
    - Wall-clock readings ([time.time()], seconds) are rationals ([Q]) and
      the arithmetic on them is exact; [clock_reading] says which rationals
      the clock returns.
    - The energy of a frame is modelled twice.  [rms_energy] and
      [is_speech_energy] evaluate lines 77-84 in exact arithmetic on reals
      ([R]): the energy is then the root mean square itself; this is the
      classifier the loop calls.  [rms_energy_float32] and
      [is_speech_energy_float32] evaluate the same lines as numpy does, every
      operation rounded to IEEE 754 single precision, on the floats of
      [SpecFloat].
    - An exception is a value: [option] for the [ValueError] of
      [np.frombuffer], [result] for the calls into Argos Translate.
    - The external collaborators (Vosk recogniser, Argos Translate) are
      interfaces: a type class for the recogniser, a record of functions for
      the installed languages. *)

From Stdlib Require Import Strings.String Strings.Ascii Strings.Byte.
From Stdlib Require Import List Bool Arith ZArith NArith QArith Lia Lra Lqa.
From Stdlib Require Import Reals.
From Stdlib Require Floats.SpecFloat.
Import ListNotations.

(* ================================================================== *)
(** ** Python strings and bytes *)
(* ================================================================== *)

Definition char := N.
Definition str := list char.
Definition bytes := list byte.

(** ASCII literals, for readable examples. *)
Definition lit (s : string) : str := map N_of_ascii (list_ascii_of_string s).

(** [str.isspace] on one character: the code points Python's
    [Py_UNICODE_ISSPACE] accepts. *)
Definition isspace (c : char) : bool :=
  (((9 <=? c) && (c <=? 13)) || ((28 <=? c) && (c <=? 32))
   || (c =? 133) || (c =? 160) || (c =? 5760)
   || ((8192 <=? c) && (c <=? 8202))
   || (c =? 8232) || (c =? 8233) || (c =? 8239) || (c =? 8287)
   || (c =? 12288))%N.

Fixpoint lstrip (s : str) : str :=
  match s with
  | [] => []
  | c :: r => if isspace c then lstrip r else s
  end.

Definition rstrip (s : str) : str := rev (lstrip (rev s)).

(** [s.strip()] *)
Definition strip (s : str) : str := rstrip (lstrip s).

(** The text is empty or starts with a character that is not whitespace. *)
Definition no_leading_space (s : str) : Prop :=
  match s with [] => True | c :: _ => isspace c = false end.

(** Truthiness of a [str]: non-empty. *)
Definition truthy (s : str) : bool :=
  match s with [] => false | _ :: _ => true end.

(** [text or ""] for a [str]. *)
Definition or_empty (s : str) : str := if truthy s then s else [].

(** [x or ""] for a value that may be [None] (a missing JSON field). *)
Definition opt_or_empty (o : option str) : str :=
  match o with Some s => or_empty s | None => [] end.

Fixpoint str_eqb (a b : str) : bool :=
  match a, b with
  | [], [] => true
  | x :: a', y :: b' => (x =? y)%N && str_eqb a' b'
  | _, _ => false
  end.

(* ================================================================== *)
(** ** Tunable parameters (module constants) *)
(* ================================================================== *)

Definition SAMPLE_RATE : Z := 16000.
Definition BLOCK_MS : Z := 30.
Definition PAUSE_MS : Q := 800.
Definition RMS_THRESH : R := (9 / 1000)%R.
Definition PARTIAL_EVERY : Q := 1200.
Definition MIN_PARTIAL_CHARS : nat := 6.

(** [frame_bytes = int(2 * SAMPLE_RATE * BLOCK_MS / 1000)] in [main]. *)
Definition frame_bytes : nat := Z.to_nat (2 * SAMPLE_RATE * BLOCK_MS / 1000).

(* ================================================================== *)
(** ** Energy detector: [rms_energy], [is_speech_energy] *)
(* ================================================================== *)

(** Lines 77-84 in exact arithmetic: the energy is the root mean square of
    the samples over 32768, without the rounding of numpy's float32.  The
    computation with that rounding follows, as [rms_energy_float32]. *)

(** One little-endian two's complement 16-bit sample. *)
Definition int16_of (lo hi : byte) : Z :=
  let u := (Z.of_N (Byte.to_N lo) + 256 * Z.of_N (Byte.to_N hi))%Z in
  if (u <? 32768)%Z then u else (u - 65536)%Z.

Definition int16_range (v : Z) : Prop := (-32768 <= v <= 32767)%Z.

(** [np.frombuffer(b, dtype=np.int16)]: [None] is the [ValueError] raised
    when the buffer size is not a multiple of the element size. *)
Fixpoint frombuffer_int16 (b : bytes) : option (list Z) :=
  match b with
  | [] => Some []
  | [_] => None
  | lo :: hi :: rest =>
      match frombuffer_int16 rest with
      | Some l => Some (int16_of lo hi :: l)
      | None => None
      end
  end.

Definition Rsum (l : list R) : R := fold_right Rplus 0%R l.

(** [np.mean] *)
Definition mean (l : list R) : R := (Rsum l / INR (length l))%R.

(** [.astype(np.float32) / 32768.0] *)
Definition normalize (l : list Z) : list R :=
  map (fun v => (IZR v / 32768)%R) l.

Definition square (l : list R) : list R := map (fun v => (v * v)%R) l.

Definition rms_energy (frame : bytes) : option R :=
  match frombuffer_int16 frame with
  | None => None
  | Some samples =>
      let x := normalize samples in
      if (length x =? 0)%nat then Some 0%R
      else Some (sqrt (mean (square x)))
  end.

(** [a >= b] on floats, as a boolean. *)
Definition Rge_bool (a b : R) : bool := if Rge_dec a b then true else false.

Definition is_speech_energy (frame : bytes) : option bool :=
  match rms_energy frame with
  | None => None
  | Some e => Some (Rge_bool e RMS_THRESH)
  end.

(** The same decision on integers: [sqrt (sum s^2 / (n * 2^30)) >= 9/1000]
    iff [10^6 * sum s^2 >= 81 * 2^30 * n].  Proved equal to
    [is_speech_energy] below; used to evaluate frames. *)
Definition sum_squares (l : list Z) : Z :=
  fold_right (fun v acc => (v * v + acc)%Z) 0%Z l.

Definition is_speech_exact (frame : bytes) : option bool :=
  match frombuffer_int16 frame with
  | None => None
  | Some samples =>
      Some ((81 * 1073741824 * Z.of_nat (length samples)
             <=? 1000000 * sum_squares samples)%Z
            && negb (length samples =? 0)%nat)
  end.

(* ================================================================== *)
(** ** Energy detector in numpy's arithmetic *)
(* ================================================================== *)

(** The operations of numpy that lines 77-84 call, on IEEE 754 floats:
    binary32 is [prec = 24], [emax = 128]; binary64 (Python's [float]) is
    [prec = 53], [emax = 1024].  Every operation is rounded to nearest,
    ties to even. *)
Module np.
Import SpecFloat.

Definition float : Type := spec_float.

Definition zero : float := S754_zero false.

(** [.astype(np.float32)] of an integer, and an integer as a double. *)
Definition float32_of_int (v : Z) : float := binary_normalize 24 128 v 0 false.
Definition float64_of_int (v : Z) : float := binary_normalize 53 1024 v 0 false.

Definition add32 : float -> float -> float := SFadd 24 128.
Definition mul32 : float -> float -> float := SFmul 24 128.
Definition div32 : float -> float -> float := SFdiv 24 128.
Definition sqrt32 : float -> float := SFsqrt 24 128.
Definition div64 : float -> float -> float := SFdiv 53 1024.

(** A float32 as a double (exact), a double as a float32 (rounded). *)
Definition float64_of_float32 (x : float) : float :=
  match x with
  | S754_finite s m e => binary_round 53 1024 s m e
  | _ => x
  end.

Definition float32_of_float64 (x : float) : float :=
  match x with
  | S754_finite s m e => binary_round 24 128 s m e
  | _ => x
  end.

(** [a >= b] *)
Definition ge (a b : float) : bool := SFleb b a.

(** The sum of a contiguous float32 array, [np.add.reduce]: pairwise
    summation.  Fewer than 8 elements are added from left to right; up to
    [PW_BLOCKSIZE] elements are added into 8 accumulators, element [i] into
    accumulator [i mod 8], the accumulators are added as a balanced tree
    and the [n mod 8] last elements are added to the result; a longer array
    is cut at [n / 2] rounded down to a multiple of 8 and the sums of the two
    parts are added. *)
Definition PW_BLOCKSIZE : nat := 128.

Definition sum_rest (res : float) (a : list float) : float :=
  fold_left add32 a res.

Fixpoint zip_add (r a : list float) : list float :=
  match r, a with
  | x :: r', y :: a' => add32 x y :: zip_add r' a'
  | _, _ => r
  end.

(** [k] rounds of the unrolled loop: the accumulators [r], the elements not
    yet added. *)
Fixpoint unrolled (k : nat) (r a : list float) : list float * list float :=
  match k with
  | O => (r, a)
  | S k' => unrolled k' (zip_add r (firstn 8 a)) (skipn 8 a)
  end.

Definition combine8 (r : list float) : float :=
  match r with
  | [r0; r1; r2; r3; r4; r5; r6; r7] =>
      add32 (add32 (add32 r0 r1) (add32 r2 r3))
            (add32 (add32 r4 r5) (add32 r6 r7))
  | _ => zero
  end.

Definition sum_block (a : list float) : float :=
  let '(r, rest) := unrolled (length a / 8 - 1) (firstn 8 a) (skipn 8 a) in
  sum_rest (combine8 r) rest.

(** The recursion halves the array; [fuel] bounds its depth (the length of
    the array is enough, see [pairwise_sum_fuel]). *)
Fixpoint pairwise_sum_rec (fuel : nat) (a : list float) : float :=
  let n := length a in
  if (n <? 8)%nat then sum_rest zero a
  else if (n <=? PW_BLOCKSIZE)%nat then sum_block a
  else match fuel with
       | O => sum_block a
       | S fuel' =>
           let n2 := (n / 2 - (n / 2) mod 8)%nat in
           add32 (pairwise_sum_rec fuel' (firstn n2 a))
                 (pairwise_sum_rec fuel' (skipn n2 a))
       end.

Definition pairwise_sum (a : list float) : float :=
  pairwise_sum_rec (length a) a.

(** The reduction starts from the identity [0.0]. *)
Definition sum (a : list float) : float := add32 zero (pairwise_sum a).

(** [np.mean] of a float32 array: the float32 sum, divided by the number of
    elements in double precision, and the quotient rounded to float32. *)
Definition mean_of (total : float) (count : nat) : float :=
  float32_of_float64
    (div64 (float64_of_float32 total) (float64_of_int (Z.of_nat count))).

Definition mean (a : list float) : float := mean_of (sum a) (length a).

End np.

(** The literal [0.009] of line 68: the double nearest to 9/1000, which is
    5188146770730811 * 2^-59 (see [RMS_THRESH_float_nearest]). *)
Definition RMS_THRESH_float : np.float :=
  SpecFloat.S754_finite false 5188146770730811 (-59).

(** Lines 77-81.  The samples become float32 and are divided by [32768.0];
    the squares, their mean and its square root are float32; [float(...)]
    makes the result a double. *)
Definition rms_energy_float32 (frame : bytes) : option np.float :=
  match frombuffer_int16 frame with
  | None => None
  | Some samples =>
      let x := map (fun v => np.div32 (np.float32_of_int v)
                                      (np.float32_of_int 32768)) samples in
      if (length x =? 0)%nat then Some np.zero
      else Some (np.float64_of_float32
                   (np.sqrt32 (np.mean (map (fun v => np.mul32 v v) x))))
  end.

(** Lines 83-84. *)
Definition is_speech_energy_float32 (frame : bytes) : option bool :=
  match rms_energy_float32 frame with
  | None => None
  | Some e => Some (np.ge e RMS_THRESH_float)
  end.


(* ================================================================== *)
(** ** Speech output queue: [TTSWorker.say], [TTSWorker._drain_queue] *)
(* ================================================================== *)

(** A queued job is the tuple [(text, lang_code)]; [self.q] is a FIFO,
    oldest job first. *)
Definition job := (str * str)%type.
Definition queue := list job.

(** [_drain_queue]: [get_nowait] until [queue.Empty]; every successful
    [get_nowait] removes the oldest job. *)
Fixpoint _drain_queue (q : queue) : queue :=
  match q with
  | [] => []
  | _ :: rest => _drain_queue rest
  end.

(** [self.q.get()] of the worker in [_run]: the oldest job; [None] when the
    queue is empty (the worker blocks). *)
Definition worker_get (q : queue) : option (job * queue) :=
  match q with
  | [] => None
  | j :: rest => Some (j, rest)
  end.

(** Executions of [_drain_queue] while the worker thread runs: between two
    [get_nowait] calls the worker may take the oldest job itself. *)
Inductive drains : queue -> queue -> Prop :=
| drains_empty : drains [] []                                (* queue.Empty *)
| drains_get (j : job) (q q' : queue) :
    drains q q' -> drains (j :: q) q'                        (* get_nowait *)
| drains_worker (j : job) (q rest q' : queue) :
    worker_get q = Some (j, rest) ->
    drains rest q' -> drains q q'.                           (* worker's get *)

(** [say(text, lang_code, priority)], as a transformer of [self.q]. *)
Definition say (q : queue) (text lang_code : str) (priority : Z) : queue :=
  let text := strip (or_empty text) in
  if negb (truthy text) then q
  else
    let q := if (priority =? 1)%Z then _drain_queue q else q in
    q ++ [(text, lang_code)].

(* ================================================================== *)
(** ** Translation adapter: [translate_text] *)
(* ================================================================== *)

(** Outcome of a call into Argos Translate: a value, or an [Exception] with
    its message. *)
Inductive result (A : Type) : Type :=
| Ok (a : A)
| Raise (e : str).
Arguments Ok {A} a.
Arguments Raise {A} e.

(** What the code uses of Argos Translate.  [get_translation] takes the
    target language by its code; [None] is the Python [None] it returns
    when the package for the pair is not installed. *)
Record Translation := { translate : str -> result str }.
Record Language := {
  code : str;
  get_translation : str -> result (option Translation)
}.
Record Argos := { get_installed_languages : result (list Language) }.

(** Lines printed by [translate_text] and [main]. *)
Inductive msg : Type :=
| WarnMissingLanguages (src tgt : str)      (* "Argos: faltan idiomas ..." *)
| WarnArgosError (e : str)                  (* "Error Argos: ..." *)
| AsrLine (src final : str)                 (* "[ASR src] final" *)
| MtLine (src tgt translated : str).        (* "[src->tgt] translated" *)

Definition is_warning (m : msg) : bool :=
  match m with
  | WarnMissingLanguages _ _ | WarnArgosError _ => true
  | _ => false
  end.

(** [next((l for l in langs if getattr(l, "code", "") == c), None)] *)
Definition find_language (langs : list Language) (c : str) : option Language :=
  find (fun l => str_eqb (code l) c) langs.

(** The [AttributeError] of [None.translate]. *)
Definition none_has_no_translate : str :=
  lit "'NoneType' object has no attribute 'translate'".

(** [translate_text(src, tgt, text)]: the returned text and the lines it
    printed. *)
Definition translate_text (env : Argos) (src tgt text : str)
  : str * list msg :=
  match get_installed_languages env with
  | Raise e => (or_empty text, [WarnArgosError e])
  | Ok langs =>
      match find_language langs src, find_language langs tgt with
      | Some from_lang, Some to_lang =>
          match get_translation from_lang (code to_lang) with
          | Raise e => (or_empty text, [WarnArgosError e])
          | Ok None => (or_empty text, [WarnArgosError none_has_no_translate])
          | Ok (Some translation) =>
              match translate translation (or_empty text) with
              | Ok out => (out, [])
              | Raise e => (or_empty text, [WarnArgosError e])
              end
          end
      | _, _ => (or_empty text, [WarnMissingLanguages src tgt])
      end
  end.

(** The engine translated [text] into [out]: both languages are installed,
    the pair has a translation, and no call raised. *)
Definition translates (env : Argos) (src tgt text out : str) : Prop :=
  exists langs from_lang to_lang translation,
    get_installed_languages env = Ok langs /\
    find_language langs src = Some from_lang /\
    find_language langs tgt = Some to_lang /\
    get_translation from_lang (code to_lang) = Ok (Some translation) /\
    translate translation text = Ok out.

(** The language pair is not installed: a language is missing, or there
    is no translation package from one to the other. *)
Definition pair_unavailable (env : Argos) (src tgt : str) : Prop :=
  exists langs,
    get_installed_languages env = Ok langs /\
    (find_language langs src = None \/
     find_language langs tgt = None \/
     exists from_lang to_lang,
       find_language langs src = Some from_lang /\
       find_language langs tgt = Some to_lang /\
       get_translation from_lang (code to_lang) = Ok None).

(** A call into the engine raised. *)
Definition engine_raises (env : Argos) (src tgt text : str) : Prop :=
  (exists e, get_installed_languages env = Raise e) \/
  exists langs from_lang to_lang,
    get_installed_languages env = Ok langs /\
    find_language langs src = Some from_lang /\
    find_language langs tgt = Some to_lang /\
    ((exists e, get_translation from_lang (code to_lang) = Raise e) \/
     exists translation e,
       get_translation from_lang (code to_lang) = Ok (Some translation) /\
       translate translation text = Raise e).

(* ================================================================== *)
(** ** Recogniser interface (Vosk) *)
(* ================================================================== *)

(** The calls [main] makes on a recogniser session.  [PartialResult] and
    [FinalResult] give the JSON field the code reads ([None]: absent or
    null) and the session afterwards. *)
Class Recognizer (session : Type) : Type := {
  KaldiRecognizer : session;   (* KaldiRecognizer(model, SAMPLE_RATE); SetWords(True) *)
  AcceptWaveform : session -> bytes -> session;
  PartialResult : session -> option str * session;   (* field "partial" *)
  FinalResult : session -> option str * session      (* field "text" *)
}.

(* ================================================================== *)
(** ** The loop of [main] *)
(* ================================================================== *)

(** Command-line arguments the loop reads. *)
Record Args := { src : str; tgt : str; partials : bool }.

(** Local variables of [main] that live across iterations. *)
Record Loop (session : Type) := {
  rec : session;
  last_voice_time : Q;
  got_voice : bool;
  partial_buf_text : str;
  partial_last_emit : Q
}.

Arguments rec {session} _.
Arguments last_voice_time {session} _.
Arguments got_voice {session} _.
Arguments partial_buf_text {session} _.
Arguments partial_last_emit {session} _.

(** Calls the loop makes, in order: the observable trace of one frame. *)
Inductive event : Type :=
| EvAccept (frame : bytes)                    (* rec.AcceptWaveform(frame) *)
| EvPartialResult                             (* rec.PartialResult() *)
| EvFinalResult                               (* rec.FinalResult() *)
| EvNewRecognizer                             (* rec = KaldiRecognizer(...) *)
| EvTranslate (text : str)                    (* translate_text(src, tgt, text) *)
| EvPrint (m : msg)                           (* print(...) *)
| EvSay (text lang : str) (priority : Z).     (* tts.say(text, lang, priority) *)

(** [a > b] and [a >= b] on clock values. *)
Definition Qgt_bool (a b : Q) : bool := negb (Qle_bool a b).
Definition Qge_bool (a b : Q) : bool := Qle_bool b a.

Section MainLoop.

Context {session : Type} {vosk : Recognizer session}.
Variable args : Args.
Variable tr : Argos.

Definition initial : Loop session :=
  {| rec := KaldiRecognizer;
     last_voice_time := 0;
     got_voice := false;
     partial_buf_text := [];
     partial_last_emit := 0 |}.

(** Lines 303-332: the body of the loop once [speaking] and [now] are
    known.  Returns the new locals, the new speech queue and the calls
    made. *)
Definition segment_step (st : Loop session) (q : queue)
    (speaking : bool) (frame : bytes) (now : Q)
  : Loop session * queue * list event :=
  let rec1 := AcceptWaveform (rec st) frame in
  if speaking then
    if partials args
       && Qgt_bool ((now - partial_last_emit st) * 1000) PARTIAL_EVERY
    then
      let (res, rec2) := PartialResult rec1 in
      let partial := strip (opt_or_empty res) in
      if truthy partial
         && negb (str_eqb partial (partial_buf_text st))
         && (MIN_PARTIAL_CHARS <=? length partial)%nat
      then
        let (out, printed) := translate_text tr (src args) (tgt args) partial in
        ({| rec := rec2; last_voice_time := now; got_voice := true;
            partial_buf_text := partial; partial_last_emit := now |},
         say q out (tgt args) 0,
         [EvAccept frame; EvPartialResult; EvTranslate partial]
           ++ map EvPrint printed ++ [EvSay out (tgt args) 0])
      else
        ({| rec := rec2; last_voice_time := now; got_voice := true;
            partial_buf_text := partial_buf_text st;
            partial_last_emit := partial_last_emit st |},
         q, [EvAccept frame; EvPartialResult])
    else
      ({| rec := rec1; last_voice_time := now; got_voice := true;
          partial_buf_text := partial_buf_text st;
          partial_last_emit := partial_last_emit st |},
       q, [EvAccept frame])
  else
    if got_voice st
       && Qge_bool ((now - last_voice_time st) * 1000) PAUSE_MS
    then
      let (res, _) := FinalResult rec1 in
      let final := strip (opt_or_empty res) in
      let (q', spoken) :=
        if truthy final then
          let (translated, printed) :=
            translate_text tr (src args) (tgt args) final in
          (say q translated (tgt args) 1,
           [EvPrint (AsrLine (src args) final); EvTranslate final]
             ++ map EvPrint printed
             ++ [EvPrint (MtLine (src args) (tgt args) translated);
                 EvSay translated (tgt args) 1])
        else (q, [])
      in
      ({| rec := KaldiRecognizer; last_voice_time := last_voice_time st;
          got_voice := false; partial_buf_text := [];
          partial_last_emit := 0 |},
       q', [EvAccept frame; EvFinalResult] ++ spoken ++ [EvNewRecognizer])
    else
      ({| rec := rec1; last_voice_time := last_voice_time st;
          got_voice := got_voice st;
          partial_buf_text := partial_buf_text st;
          partial_last_emit := partial_last_emit st |},
       q, [EvAccept frame]).

(** Lines 299-332 for one full frame: classify, read the clock ([now] is
    the reading), then the rest of the body.  [None]: the [ValueError]
    of the classifier leaves the loop. *)
Definition on_frame (st : Loop session) (q : queue) (frame : bytes) (now : Q)
  : option (Loop session * queue * list event) :=
  match is_speech_energy frame with
  | None => None
  | Some speaking => Some (segment_step st q speaking frame now)
  end.

(** The loop body over a sequence of full frames, each with the clock
    reading taken for it; the trace has one list of calls per frame. *)
Fixpoint run_frames (st : Loop session) (q : queue)
    (inputs : list (bytes * Q))
  : option (Loop session * queue * list (list event)) :=
  match inputs with
  | [] => Some (st, q, [])
  | (frame, now) :: rest =>
      match on_frame st q frame now with
      | None => None
      | Some (st1, q1, evs) =>
          match run_frames st1 q1 rest with
          | None => None
          | Some (st2, q2, trace) => Some (st2, q2, evs :: trace)
          end
      end
  end.

(** What [PartialResult] would give after [frame] is fed: the candidate
    partial of lines 311-312. *)
Definition candidate_partial (st : Loop session) (frame : bytes) : str :=
  strip (opt_or_empty (fst (PartialResult (AcceptWaveform (rec st) frame)))).

(** The same loop over frames whose classification is given: used to
    evaluate runs. *)
Fixpoint run_classified (st : Loop session) (q : queue)
    (inputs : list (bool * (bytes * Q)))
  : Loop session * queue * list (list event) :=
  match inputs with
  | [] => (st, q, [])
  | (speaking, (frame, now)) :: rest =>
      let '(st1, q1, evs) := segment_step st q speaking frame now in
      let '(st2, q2, trace) := run_classified st1 q1 rest in
      (st2, q2, evs :: trace)
  end.

(** [range(0, stop, step)] for a positive [step]. *)
Definition py_range (stop step : nat) : list nat :=
  map (fun k => k * step)%nat (seq 0 ((stop + step - 1) / step)).

(** [chunk[i:i+frame_bytes]] *)
Definition slice (chunk : bytes) (i : nat) : bytes :=
  firstn frame_bytes (skipn i chunk).

(** Lines 294-332: the [for] loop over one chunk.  [stamp i] is the
    clock reading taken while the slice at offset [i] is handled. *)
Fixpoint for_offsets (offsets : list nat) (chunk : bytes) (stamp : nat -> Q)
    (st : Loop session) (q : queue)
  : option (Loop session * queue * list (list event)) :=
  match offsets with
  | [] => Some (st, q, [])
  | i :: rest =>
      let frame := slice chunk i in
      if (length frame <? frame_bytes)%nat then
        for_offsets rest chunk stamp st q            (* continue *)
      else
        match on_frame st q frame (stamp i) with
        | None => None
        | Some (st1, q1, evs) =>
            match for_offsets rest chunk stamp st1 q1 with
            | None => None
            | Some (st2, q2, trace) => Some (st2, q2, evs :: trace)
            end
        end
  end.

Definition process_chunk (st : Loop session) (q : queue)
    (chunk : bytes) (stamp : nat -> Q) :=
  for_offsets (py_range (length chunk) frame_bytes) chunk stamp st q.

(** Lines 292-332 over the chunks delivered by the capture thread. *)
Fixpoint main_loop (st : Loop session) (q : queue)
    (chunks : list (bytes * (nat -> Q)))
  : option (Loop session * queue * list (list event)) :=
  match chunks with
  | [] => Some (st, q, [])
  | (chunk, stamp) :: rest =>
      match process_chunk st q chunk stamp with
      | None => None
      | Some (st1, q1, tr1) =>
          match main_loop st1 q1 rest with
          | None => None
          | Some (st2, q2, tr2) => Some (st2, q2, tr1 ++ tr2)
          end
      end
  end.

(** The full frames of a chunk with their clock readings: what the [for]
    loop hands to the loop body. *)
Definition frames_of_chunk (chunk : bytes) (stamp : nat -> Q)
  : list (bytes * Q) :=
  map (fun i => (slice chunk i, stamp i))
      (filter (fun i => negb (length (slice chunk i) <? frame_bytes)%nat)
              (py_range (length chunk) frame_bytes)).

End MainLoop.

(* ================================================================== *)
(** ** Reading traces *)
(* ================================================================== *)

Definition is_final_result (e : event) : bool :=
  match e with EvFinalResult => true | _ => false end.

Definition is_new_recognizer (e : event) : bool :=
  match e with EvNewRecognizer => true | _ => false end.

Definition is_say (e : event) : bool :=
  match e with EvSay _ _ _ => true | _ => false end.

Definition count (p : event -> bool) (evs : list event) : nat :=
  length (filter p evs).

(** The frame closed a phrase: [rec.FinalResult()] was called. *)
Definition finalizes (evs : list event) : Prop := In EvFinalResult evs.

(** The frame emitted the partial [p]: [rec.PartialResult()] was read and
    [p] was handed to [translate_text] (and then to [tts.say]). *)
Definition emits_partial (evs : list event) (p : str) : Prop :=
  In EvPartialResult evs /\ In (EvTranslate p) evs.

(** The partials emitted by one frame, then by a whole trace, in order. *)
Definition translated_texts (evs : list event) : list str :=
  flat_map (fun e => match e with EvTranslate t => [t] | _ => [] end) evs.

Definition partials_of_frame (evs : list event) : list str :=
  if existsb (fun e => match e with EvPartialResult => true | _ => false end) evs
  then translated_texts evs else [].

Definition partials_emitted (trace : list (list event)) : list str :=
  flat_map partials_of_frame trace.

(** The speech queue after the [tts.say] calls of a trace, in order. *)
Fixpoint replay_says (q : queue) (evs : list event) : queue :=
  match evs with
  | [] => q
  | EvSay text lang priority :: rest => replay_says (say q text lang priority) rest
  | _ :: rest => replay_says q rest
  end.

(** The locals with another [last_voice_time]. *)
Definition set_voice_time {session : Type} (t : Q) (st : Loop session)
  : Loop session :=
  {| rec := rec st; last_voice_time := t; got_voice := got_voice st;
     partial_buf_text := partial_buf_text st;
     partial_last_emit := partial_last_emit st |}.

(** The session protocol: reading a trace from left to right, [stale] says
    that [FinalResult] was called on the live session and the session has
    not been replaced yet.  A frame must not be fed to a stale session, a
    session is replaced only when stale, and [FinalResult] is not called
    twice on one session. *)
Fixpoint session_protocol (stale : bool) (evs : list event) : bool :=
  match evs with
  | [] => negb stale
  | EvFinalResult :: rest => negb stale && session_protocol true rest
  | EvNewRecognizer :: rest => stale && session_protocol false rest
  | EvAccept _ :: rest => negb stale && session_protocol stale rest
  | EvPartialResult :: rest => negb stale && session_protocol stale rest
  | _ :: rest => session_protocol stale rest
  end.

(** Elapsed milliseconds between two clock readings, as the code computes
    them. *)
Definition elapsed_ms (now since : Q) : Q := (now - since) * 1000.

Definition speech (x : bytes * Q) : Prop := is_speech_energy (fst x) = Some true.
Definition silence (x : bytes * Q) : Prop := is_speech_energy (fst x) = Some false.

(** The classifier returned for this frame (it is not a [ValueError]). *)
Definition classified (x : bytes * Q) : Prop := is_speech_energy (fst x) <> None.

(** [short s m]: at frame [m] less than [PAUSE_MS] have elapsed since [s]. *)
Definition short (s m : bytes * Q) : Prop :=
  elapsed_ms (snd m) (snd s) < PAUSE_MS.

(** [open_segment pre s]: the frames [pre] end with the speech frame [s]
    followed by silence frames only, none of which reached [PAUSE_MS]. *)
Definition open_segment (pre : list (bytes * Q)) (s : bytes * Q) : Prop :=
  exists before run,
    pre = before ++ s :: run /\ speech s /\
    Forall silence run /\ Forall (short s) run.

(** [pause_crossed pre x]: the frame [x], arriving after the frames [pre],
    is the first frame of a silence run at which [PAUSE_MS] have elapsed
    since the speech frame [s] that precedes the run. *)
Definition pause_crossed (pre : list (bytes * Q)) (x : bytes * Q) : Prop :=
  exists before s run,
    pre = before ++ s :: run /\
    speech s /\
    Forall silence run /\ silence x /\
    Forall (fun m => elapsed_ms (snd m) (snd s) < PAUSE_MS) run /\
    PAUSE_MS <= elapsed_ms (snd x) (snd s).

(** What the locals [got_voice] and [last_voice_time] record after the
    frames [pre] have been processed. *)
Definition voice_recorded {session : Type}
    (pre : list (bytes * Q)) (st : Loop session) : Prop :=
  if got_voice st
  then exists s, open_segment pre s /\ last_voice_time st = snd s
  else forall s, ~ open_segment pre s.

(** The guard of line 310 and of line 313, as propositions. *)
Definition interval_elapsed {session : Type} (st : Loop session) (now : Q)
  : Prop :=
  PARTIAL_EVERY < elapsed_ms now (partial_last_emit st).

Definition worth_emitting {session : Type} (st : Loop session) (partial : str)
  : Prop :=
  partial <> partial_buf_text st /\ (MIN_PARTIAL_CHARS <= length partial)%nat.

(** A reading of [time.time()] is a double.  From 2^30 seconds after the
    epoch on (January 2004) every double is a multiple of 2^-22 s, and the
    difference of two readings a few seconds apart is computed without
    rounding, as is its product by [1000.0]. *)
Definition clock_reading (t : Q) : Prop :=
  1073741824 <= t /\ exists k : Z, t == inject_Z k / 4194304.

(** What [partial_last_emit] holds: [0.0] at start-up, then the reading at
    the last emission (lines 287 and 317). *)
Definition emission_stamp (t : Q) : Prop := t == 0 \/ clock_reading t.

(* ================================================================== *)
(** ** Start-up check of the language pair: [ensure_language_pair] *)
(* ================================================================== *)

Definition ensure_language_pair (env : Argos) (src tgt : str) : bool :=
  match get_installed_languages env with
  | Raise _ => false
  | Ok langs =>
      match find_language langs src, find_language langs tgt with
      | Some from_lang, Some to_lang =>
          match get_translation from_lang (code to_lang) with
          | Raise _ => false
          | Ok _ => true
          end
      | _, _ => false
      end
  end.

(* ================================================================== *)
(** ** The speech worker: backends, [_pick_voice_pyttsx3],
       [_speak_pyttsx3_ephemeral], [_speak_espeakng], [_run] *)
(* ================================================================== *)

Definition TTS_RATE : Z := 170.
Definition TTS_VOLUME : Q := 1.

(** [s.startswith(prefix)] and [needle in hay]. *)
Fixpoint startswith (prefix s : str) : bool :=
  match prefix, s with
  | [], _ => true
  | p :: prefix', c :: s' => (p =? c)%N && startswith prefix' s'
  | _ :: _, [] => false
  end.

Fixpoint contains (needle hay : str) : bool :=
  startswith needle hay ||
  match hay with
  | [] => false
  | _ :: hay' => contains needle hay'
  end.

(** A voice of pyttsx3: [name] and [id] may be [None]; reading and decoding
    [languages] may raise. *)
Record Voice := {
  voice_name : option str;
  voice_id : option str;
  voice_languages : result (list str)
}.

(** A pyttsx3 engine, by the outcome of the calls the code makes on it. *)
Record Engine := {
  setProperty_rate : Z -> result unit;
  setProperty_volume : Q -> result unit;
  getProperty_voices : result (list Voice);
  setProperty_voice : str -> result unit;
  engine_say : str -> result unit;
  runAndWait : result unit
}.

Record Pyttsx3 := { pyttsx3_init : result Engine }.

(** An espeak-ng speaker: [speak voice rate text] stands for setting
    [spk.voice], setting [spk.rate] and calling [spk.say(text)]. *)
Record Speaker := { speak : str -> Z -> str -> result unit }.
Record EspeakNg := { new_Speaker : result Speaker }.

(** The module globals set by the conditional imports. *)
Record Platform := {
  IS_WINDOWS : bool;
  PYTTSX3 : option Pyttsx3;
  ESPEAKNG : option EspeakNg
}.

Definition module_or_none {A : Type} (imported : result A) : option A :=
  match imported with Ok m => Some m | Raise _ => None end.

(** Lines 39-60: which modules are bound, given the platform and whether
    each import succeeds. *)
Definition import_backends (is_windows : bool)
    (import_pyttsx3 : result Pyttsx3) (import_espeakng : result EspeakNg)
  : Platform :=
  if is_windows then
    {| IS_WINDOWS := true; PYTTSX3 := module_or_none import_pyttsx3;
       ESPEAKNG := None |}
  else
    match import_espeakng with
    | Ok m => {| IS_WINDOWS := false; PYTTSX3 := None; ESPEAKNG := Some m |}
    | Raise _ =>
        {| IS_WINDOWS := false; PYTTSX3 := module_or_none import_pyttsx3;
           ESPEAKNG := None |}
    end.

Inductive backend : Type := Pyttsx3Backend | EspeakBackend.

(** What the worker does for a job, in order. *)
Inductive tts_event : Type :=
| TtsSay (b : backend) (voice : option str) (rate : Z) (text : str)
    (* the backend was asked to speak *)
| TtsWarn (b : backend) (e : str)          (* "Error TTS (...): e" *)
| TtsFallback (lang text : str).           (* "[TTS fallback] lang: text" *)

Definition is_fallback (e : tts_event) : bool :=
  match e with TtsFallback _ _ => true | _ => false end.

Definition is_tts_say (e : tts_event) : bool :=
  match e with TtsSay _ _ _ _ => true | _ => false end.

Definition bind {A B : Type} (r : result A) (k : A -> result B) : result B :=
  match r with Ok a => k a | Raise e => Raise e end.

Notation "x <- r ;; k" := (bind r (fun x => k))
  (at level 61, r at next level, right associativity).

(** Which backend an event comes from. *)
Definition event_backend (e : tts_event) : option backend :=
  match e with
  | TtsSay b _ _ _ | TtsWarn b _ => Some b
  | TtsFallback _ _ => None
  end.

Definition from_pyttsx3 (e : tts_event) : bool :=
  match event_backend e with Some Pyttsx3Backend => true | _ => false end.

Definition from_espeak (e : tts_event) : bool :=
  match event_backend e with Some EspeakBackend => true | _ => false end.

Section Worker.

(** [str.lower] of Python. *)
Variable lower : str -> str.

(** ['en' if (lang_code or '').lower().startswith('en') else 'es'] *)
Definition wanted_language (lang_code : str) : str :=
  if startswith (lit "en") (lower (or_empty lang_code))
  then lit "en" else lit "es".

(** The test of line 135 on one voice. *)
Definition voice_matches (want : str) (v : Voice) : bool :=
  let name := lower (opt_or_empty (voice_name v)) in
  let vid := lower (opt_or_empty (voice_id v)) in
  let langs := match voice_languages v with Ok l => l | Raise _ => [] end in
  contains want name || contains want vid
  || existsb (fun l => contains want (lower l)) langs.

(** The [for v in voices] loop: [v.id] of the first voice that matches. *)
Fixpoint first_voice (want : str) (voices : list Voice) : option str :=
  match voices with
  | [] => None
  | v :: rest => if voice_matches want v then voice_id v
                 else first_voice want rest
  end.

Definition _pick_voice_pyttsx3 (engine : Engine) (lang_code : str)
  : option str :=
  match getProperty_voices engine with
  | Raise _ => None
  | Ok voices => first_voice (wanted_language lang_code) voices
  end.

(** [_speak_pyttsx3_ephemeral]: the returned flag and what happened. *)
Definition _speak_pyttsx3_ephemeral (P : Platform) (rate : Z) (volume : Q)
    (text lang_code : str) : bool * list tts_event :=
  match PYTTSX3 P with
  | None => (false, [])
  | Some m =>
      let prepared :=
        eng <- pyttsx3_init m ;;
        _ <- setProperty_rate eng rate ;;
        _ <- setProperty_volume eng volume ;;
        let vid := _pick_voice_pyttsx3 eng lang_code in
        _ <- (if truthy (opt_or_empty vid)
              then setProperty_voice eng (opt_or_empty vid) else Ok tt) ;;
        Ok (eng, vid) in
      match prepared with
      | Raise e => (false, [TtsWarn Pyttsx3Backend e])
      | Ok (eng, vid) =>
          match (_ <- engine_say eng text ;; runAndWait eng) with
          | Ok _ => (true, [TtsSay Pyttsx3Backend vid rate text])
          | Raise e => (false, [TtsSay Pyttsx3Backend vid rate text;
                                TtsWarn Pyttsx3Backend e])
          end
      end
  end.

(** [_speak_espeakng] *)
Definition _speak_espeakng (P : Platform) (rate : Z) (text lang_code : str)
  : bool * list tts_event :=
  match ESPEAKNG P with
  | None => (false, [])
  | Some m =>
      match new_Speaker m with
      | Raise e => (false, [TtsWarn EspeakBackend e])
      | Ok spk =>
          let voice := wanted_language lang_code in
          let r := Z.max 80 (Z.min 250 rate) in
          match speak spk voice r text with
          | Ok _ => (true, [TtsSay EspeakBackend (Some voice) r text])
          | Raise e => (false, [TtsSay EspeakBackend (Some voice) r text;
                                TtsWarn EspeakBackend e])
          end
      end
  end.

(** One iteration of [_run], for the job taken from the queue. *)
Definition _run_job (P : Platform) (rate : Z) (volume : Q) (j : job)
  : list tts_event :=
  let (text, lang_code) := j in
  if IS_WINDOWS P then
    let (ok, evs) := _speak_pyttsx3_ephemeral P rate volume text lang_code in
    if ok then evs else evs ++ [TtsFallback lang_code text]
  else
    let (ok1, evs1) := _speak_espeakng P rate text lang_code in
    if ok1 then evs1
    else
      let (ok2, evs2) := _speak_pyttsx3_ephemeral P rate volume text lang_code in
      if ok2 then evs1 ++ evs2
      else evs1 ++ evs2 ++ [TtsFallback lang_code text].

(** [_run] over the jobs it takes from the queue, oldest first. *)
Definition _run (P : Platform) (rate : Z) (volume : Q) (jobs : queue)
  : list tts_event :=
  flat_map (_run_job P rate volume) jobs.

End Worker.

(** [str.lower] on ASCII letters, for examples. *)
Definition ascii_lower (s : str) : str :=
  map (fun c => if ((65 <=? c) && (c <=? 90))%N then (c + 32)%N else c) s.

(** A job as [say] queues it: a text with something in it and nothing
    around it. *)
Definition speakable (j : job) : Prop :=
  fst j <> [] /\ strip (fst j) = fst j.

Definition is_accept (e : event) : bool :=
  match e with EvAccept _ => true | _ => false end.

(* ================================================================== *)
(** ** Concrete collaborators, for examples *)
(* ================================================================== *)

(** A scripted recogniser: the session counts the frames it was fed; the
    hypotheses are read off two scripts indexed by that count. *)
Definition scripted (partial final : nat -> option str) : Recognizer nat :=
  {| KaldiRecognizer := 0%nat;
     AcceptWaveform := fun n _ => S n;
     PartialResult := fun n => (partial n, n);
     FinalResult := fun n => (final n, n) |}.

(** A recogniser that never hears a word. *)
Definition mute : Recognizer nat := scripted (fun _ => None) (fun _ => None).

(** A speaker who has said "hola mundo" after one frame and
    "hola mundo otra vez" after two; every phrase closes as "hola mundo". *)
Definition talker : Recognizer nat :=
  scripted (fun n => Some (if (n <=? 1)%nat then lit "hola mundo"
                           else lit "hola mundo otra vez"))
           (fun _ => Some (lit "hola mundo")).

(** No language installed. *)
Definition no_languages : Argos := {| get_installed_languages := Ok [] |}.

(** es->en installed, with an engine that tags the text it is given. *)
Definition tagging : Translation :=
  {| translate := fun t => Ok (lit "en:" ++ t) |}.

Definition es_en : Argos :=
  {| get_installed_languages :=
       Ok [ {| code := lit "es";
               get_translation := fun c =>
                 Ok (if str_eqb c (lit "en") then Some tagging else None) |};
            {| code := lit "en";
               get_translation := fun _ => Ok None |} ] |}.

(** An engine that raises on every text. *)
Definition failing : Argos :=
  {| get_installed_languages :=
       Ok [ {| code := lit "es";
               get_translation := fun _ =>
                 Ok (Some {| translate := fun _ => Raise (lit "boom") |}) |};
            {| code := lit "en";
               get_translation := fun _ => Ok None |} ] |}.

Definition es_to_en (with_partials : bool) : Args :=
  {| src := lit "es"; tgt := lit "en"; partials := with_partials |}.

(** Frames [0 .. n-1] of a capture, one every 30 ms from [t0] on; the
    first [voiced] of them are loud, the others quiet. *)
Definition capture (t0 : Q) (voiced n : nat) (loud_frame quiet_frame : bytes)
  : list (bytes * Q) :=
  map (fun k => (if (k <? voiced)%nat then loud_frame else quiet_frame,
                 t0 + inject_Z (Z.of_nat k) * (3 # 100)))
      (seq 0 n).

(** A frame of [frame_bytes] zero bytes, and one of loud samples
    (every sample is 0x4040 = 16448). *)
Definition quiet : bytes := repeat x00 frame_bytes.
Definition loud : bytes := repeat x40 frame_bytes.

(** Samples as the bytes of an int16 array ([ndarray.tobytes]). *)
Definition int16_bytes (v : Z) : bytes :=
  let u := (v mod 65536)%Z in
  match Byte.of_N (Z.to_N (u mod 256)), Byte.of_N (Z.to_N (u / 256)) with
  | Some lo, Some hi => [lo; hi]
  | _, _ => []
  end.

Definition tobytes (samples : list Z) : bytes := flat_map int16_bytes samples.

(** Two frames of 480 samples of amplitude 292 to 300 whose root mean
    square is next to [RMS_THRESH], one above and one below: the sums of
    the squared samples are 41747083 and 41747082, and the threshold is at
    81 * 2^30 * 480 / 10^6 = 41747082.1. *)
Definition just_above_samples : list Z :=
  (repeat 295 5 ++ repeat 294 248 ++ repeat 295 22 ++ repeat 296 205)%Z.

Definition just_below_samples : list Z :=
  (repeat 297 3 ++ repeat 292 303 ++ repeat 297 7 ++ repeat 300 167)%Z.

Definition just_above : bytes := tobytes just_above_samples.
Definition just_below : bytes := tobytes just_below_samples.

(** A Linux machine where espeak-ng was imported and speaks. *)
Definition linux_espeak : Platform :=
  import_backends false (Raise (lit "No module named 'pyttsx3'"))
    (Ok {| new_Speaker := Ok {| speak := fun _ _ _ => Ok tt |} |}).

(** The first words of a phrase, and two speech frames two seconds apart. *)
Definition first_words : list (bytes * Q) := [(loud, 1000)].
Definition two_words : list (bytes * Q) := [(loud, 1000); (loud, 1002)].

(** A phrase, a pause of one second, and the same words again. *)
Definition dialogue : list (bytes * Q) :=
  [(loud, 1000); (quiet, 1001); (loud, 1002)].

(* ================================================================== *)
(** * Properties *)
(* ================================================================== *)

(** ** Strings *)

Lemma str_eqb_eq (a b : str) : str_eqb a b = true <-> a = b.
Proof.
  revert b; induction a as [|x a IH]; intros [|y b]; simpl;
    try (split; intro H; [discriminate | congruence] ); try tauto.
  rewrite andb_true_iff, N.eqb_eq, IH. split.
  - intros [-> ->]; reflexivity.
  - intros H; inversion H; auto.
Qed.

Lemma str_eqb_refl (a : str) : str_eqb a a = true.
Proof. apply str_eqb_eq; reflexivity. Qed.

Lemma or_empty_id (s : str) : or_empty s = s.
Proof. destruct s; reflexivity. Qed.

Lemma truthy_false (s : str) : truthy s = false <-> s = [].
Proof. destruct s; simpl; split; congruence. Qed.

Lemma truthy_true (s : str) : truthy s = true <-> s <> [].
Proof. destruct s; simpl; split; congruence. Qed.

(** ** Stripping *)

Lemma lstrip_blank (s : str) : forallb isspace s = true -> lstrip s = [].
Proof.
  induction s as [|c s IH]; simpl; [reflexivity|].
  intro H. apply andb_true_iff in H. destruct H as [Hc Hs].
  rewrite Hc. apply IH, Hs.
Qed.

(** A text of whitespace only strips to the empty text. *)
Lemma strip_blank (s : str) : forallb isspace s = true -> strip s = [].
Proof. intro H. unfold strip. rewrite (lstrip_blank s H). reflexivity. Qed.

(** ** Speech queue *)

Lemma drain_queue_empty (q : queue) : _drain_queue q = [].
Proof. induction q; simpl; auto. Qed.

Lemma drains_sequential (q : queue) : drains q (_drain_queue q).
Proof. induction q; simpl; constructor; assumption. Qed.

(** Whatever the worker takes meanwhile, the drain leaves the queue empty:
    the worker only removes jobs. *)
Lemma drains_leaves_empty (q q' : queue) : drains q q' -> q' = [].
Proof. induction 1; auto. Qed.

(** So the [put] that follows the drain leaves the new job alone. *)
Lemma put_after_drain (q q' : queue) (j : job) : drains q q' -> q' ++ [j] = [j].
Proof. intro H. rewrite (drains_leaves_empty q q' H). reflexivity. Qed.

(** ** Energy detector *)

Section Energy.

Local Open Scope R_scope.

Lemma Rge_bool_true (a b : R) : Rge_bool a b = true <-> a >= b.
Proof.
  unfold Rge_bool; destruct (Rge_dec a b); split; intros; auto;
    try discriminate; contradiction.
Qed.

Lemma Rge_bool_false (a b : R) : Rge_bool a b = false <-> a < b.
Proof.
  unfold Rge_bool; destruct (Rge_dec a b); split; intros;
    try discriminate; try reflexivity; try Lra.lra.
Qed.

Lemma length_normalize l : length (normalize l) = length l.
Proof. apply length_map. Qed.

Lemma length_square l : length (square l) = length l.
Proof. apply length_map. Qed.

Lemma Rsum_square_normalize (l : list Z) :
  Rsum (square (normalize l)) = IZR (sum_squares l) / 1073741824.
Proof.
  unfold Rsum, square, normalize.
  induction l as [|v l IH]; simpl.
  - Lra.lra.
  - rewrite IH, plus_IZR, mult_IZR. field.
Qed.

Lemma sum_squares_nonneg (l : list Z) : (0 <= sum_squares l)%Z.
Proof. induction l; simpl; nia. Qed.

(** The mean of the squared normalised samples, in closed form. *)
Lemma mean_square_normalize (l : list Z) :
  mean (square (normalize l))
  = IZR (sum_squares l) / (1073741824 * IZR (Z.of_nat (length l))).
Proof.
  unfold mean.
  rewrite Rsum_square_normalize, length_square, length_normalize, INR_IZR_INZ.
  destruct l as [|v l].
  - change (IZR (sum_squares [])) with 0.
    unfold Rdiv. rewrite !Rmult_0_l. reflexivity.
  - assert (IZR (Z.of_nat (length (v :: l))) <> 0).
    { apply not_0_IZR. simpl length. lia. }
    field. assumption.
Qed.

Lemma mean_square_nonneg (l : list Z) : 0 <= mean (square (normalize l)).
Proof.
  rewrite mean_square_normalize.
  destruct l as [|v l].
  - change (IZR (sum_squares [])) with 0.
    unfold Rdiv. rewrite Rmult_0_l. Lra.lra.
  - apply Rmult_le_pos.
    + apply IZR_le, sum_squares_nonneg.
    + left. apply Rinv_0_lt_compat. apply Rmult_lt_0_compat; [Lra.lra|].
      apply IZR_lt. simpl length. lia.
Qed.

Lemma Rle_div_iff (a b c : R) : 0 < c -> (a * c <= b <-> a <= b / c).
Proof.
  intros Hc. split; intro H.
  - apply Rmult_le_reg_r with c; [assumption|].
    replace (b / c * c) with b by (field; Lra.lra). assumption.
  - apply Rmult_le_compat_r with (r := c) in H; [|Lra.lra].
    replace (b / c * c) with b in H by (field; Lra.lra). assumption.
Qed.

Lemma sqrt_ge_iff (m t : R) : 0 <= m -> 0 <= t -> (sqrt m >= t <-> m >= t * t).
Proof.
  intros Hm Ht. split; intro H.
  - rewrite <- (sqrt_sqrt m Hm).
    apply Rle_ge. apply Rmult_le_compat; Lra.lra.
  - apply Rle_ge. rewrite <- (sqrt_square t Ht).
    apply sqrt_le_1; Lra.nra.
Qed.

(** The detector decides exactly the integer inequality. *)
Lemma is_speech_energy_exact (frame : bytes) :
  is_speech_energy frame = is_speech_exact frame.
Proof.
  unfold is_speech_energy, rms_energy, is_speech_exact.
  destruct (frombuffer_int16 frame) as [l|]; [|reflexivity].
  cbv zeta. rewrite length_normalize.
  destruct (Nat.eqb_spec (length l) 0) as [E|E].
  - simpl. rewrite andb_false_r. f_equal.
    apply Rge_bool_false. unfold RMS_THRESH. Lra.lra.
  - simpl negb. rewrite andb_true_r. f_equal.
    set (n := Z.of_nat (length l)).
    assert (Hn : (0 < n)%Z) by (unfold n; lia).
    assert (HnR : 0 < 1073741824 * IZR n).
    { apply Rmult_lt_0_compat; [Lra.lra | apply IZR_lt; assumption]. }
    destruct (Z.leb_spec (81 * 1073741824 * n) (1000000 * sum_squares l)) as [L|L].
    + apply Rge_bool_true.
      apply sqrt_ge_iff; [apply mean_square_nonneg | unfold RMS_THRESH; Lra.lra |].
      rewrite mean_square_normalize. fold n. unfold RMS_THRESH.
      apply IZR_le in L. rewrite !mult_IZR in L.
      apply Rle_ge. apply (proj1 (Rle_div_iff _ _ _ HnR)). Lra.lra.
    + apply Rge_bool_false.
      assert (Hno : sqrt (mean (square (normalize l))) >= RMS_THRESH -> False).
      { intro G.
        apply sqrt_ge_iff in G; [| apply mean_square_nonneg | unfold RMS_THRESH; Lra.lra].
        rewrite mean_square_normalize in G. fold n in G. unfold RMS_THRESH in G.
        apply IZR_lt in L. rewrite !mult_IZR in L.
        apply Rge_le in G. apply (proj2 (Rle_div_iff _ _ _ HnR)) in G. Lra.lra. }
      destruct (Rlt_le_dec (sqrt (mean (square (normalize l)))) RMS_THRESH); [assumption|].
      exfalso. apply Hno. Lra.lra.
Qed.

(** *** Decoding samples *)

Lemma int16_of_range (lo hi : byte) : int16_range (int16_of lo hi).
Proof.
  unfold int16_range, int16_of.
  pose proof (Byte.to_N_bounded lo). pose proof (Byte.to_N_bounded hi).
  cbv zeta.
  destruct (Z.ltb_spec (Z.of_N (to_N lo) + 256 * Z.of_N (to_N hi)) 32768); lia.
Qed.

Lemma pairs_ind {A : Type} (P : list A -> Prop) :
  P [] -> (forall a, P [a]) ->
  (forall a b l, P l -> P (a :: b :: l)) ->
  forall l, P l.
Proof.
  intros H0 H1 H2.
  assert (forall l, P l /\ forall a, P (a :: l)) as H.
  { induction l as [|b l [IH1 IH2]]; split; auto. }
  intro l; apply H.
Qed.

Lemma even_SS_length {A : Type} (a b : A) (l : list A) :
  Nat.even (length (a :: b :: l)) = Nat.even (length l).
Proof. reflexivity. Qed.

(** [np.frombuffer] succeeds exactly on buffers of even length. *)
Lemma frombuffer_even (b : bytes) :
  Nat.even (length b) = true ->
  exists l, frombuffer_int16 b = Some l /\
            length b = (2 * length l)%nat /\ Forall int16_range l.
Proof.
  induction b as [| x | x y b IH] using pairs_ind; intro E.
  - exists []. repeat split; constructor.
  - discriminate.
  - rewrite even_SS_length in E. destruct (IH E) as (l & Hl & Hlen & Hr).
    exists (int16_of x y :: l). simpl. rewrite Hl. repeat split.
    + simpl in Hlen. lia.
    + constructor; [apply int16_of_range | assumption].
Qed.

Lemma frombuffer_odd (b : bytes) :
  Nat.even (length b) = false -> frombuffer_int16 b = None.
Proof.
  induction b as [| x | x y b IH] using pairs_ind; intro E.
  - discriminate.
  - reflexivity.
  - rewrite even_SS_length in E. simpl. rewrite (IH E). reflexivity.
Qed.


Lemma frombuffer_none_iff (frame : bytes) :
  frombuffer_int16 frame = None <-> Nat.even (length frame) = false.
Proof.
  split; intro H.
  - destruct (Nat.even (length frame)) eqn:E; [|reflexivity].
    destruct (frombuffer_even frame E) as (l & Hl & _). congruence.
  - apply frombuffer_odd, H.
Qed.

Lemma frombuffer_zeros (n : nat) :
  frombuffer_int16 (repeat x00 (2 * n)) = Some (repeat 0%Z n).
Proof.
  induction n as [|n IH]; [reflexivity|].
  replace (2 * S n)%nat with (S (S (2 * n))) by lia.
  simpl repeat. simpl frombuffer_int16. simpl in IH. rewrite IH. reflexivity.
Qed.

Lemma sum_squares_zeros (n : nat) : sum_squares (repeat 0%Z n) = 0%Z.
Proof. induction n; simpl; auto. Qed.

(** *** The energy as a root mean square *)

(** On a non-empty decodable frame the result is the non-negative number
    whose square is the mean of the squared normalised samples. *)
Lemma rms_energy_is_rms (frame : bytes) (samples : list Z) :
  frombuffer_int16 frame = Some samples -> samples <> [] ->
  exists e, rms_energy frame = Some e /\ 0 <= e /\
            e * e = IZR (sum_squares samples)
                    / (1073741824 * IZR (Z.of_nat (length samples))).
Proof.
  intros Hf Hne. unfold rms_energy. rewrite Hf. cbv zeta.
  rewrite length_normalize.
  destruct (Nat.eqb_spec (length samples) 0) as [E|E].
  - destruct samples; [contradiction | discriminate].
  - eexists; split; [reflexivity|]. split.
    + apply sqrt_pos.
    + rewrite sqrt_sqrt by apply mean_square_nonneg.
      apply mean_square_normalize.
Qed.


Lemma rms_energy_zeros (n : nat) : rms_energy (repeat x00 (2 * n)) = Some 0.
Proof.
  unfold rms_energy. rewrite frombuffer_zeros. cbv zeta.
  rewrite length_normalize.
  destruct (Nat.eqb_spec (length (repeat 0%Z n)) 0); [reflexivity|].
  f_equal. rewrite mean_square_normalize, sum_squares_zeros.
  unfold Rdiv. rewrite Rmult_0_l. apply sqrt_0.
Qed.

Lemma is_speech_energy_zeros (n : nat) :
  is_speech_energy (repeat x00 (2 * n)) = Some false.
Proof.
  unfold is_speech_energy. rewrite rms_energy_zeros. f_equal.
  apply Rge_bool_false. unfold RMS_THRESH. Lra.lra.
Qed.


End Energy.

Lemma quiet_is_silence : is_speech_energy quiet = Some false.
Proof. rewrite is_speech_energy_exact. vm_compute. reflexivity. Qed.

Lemma loud_is_speech : is_speech_energy loud = Some true.
Proof. rewrite is_speech_energy_exact. vm_compute. reflexivity. Qed.

(** ** Energy detector in numpy's arithmetic *)

Section Float32.

Import SpecFloat.

(** *** Rounding a positive mantissa *)













(** *** All-zero arrays *)










(** *** The recursion of the pairwise sum *)

Lemma half_block_bounds (n : nat) :
  (128 < n)%nat ->
  (0 < n / 2 - (n / 2) mod 8 < n)%nat.
Proof.
  intro H.
  pose proof (Nat.div_mod_eq n 2) as D.
  pose proof (Nat.mod_upper_bound n 2) as U.
  pose proof (Nat.mod_upper_bound (n / 2) 8) as V.
  lia.
Qed.

Lemma pairwise_sum_rec_fuel (f1 f2 : nat) (a : list np.float) :
  (length a <= f1)%nat -> (length a <= f2)%nat ->
  np.pairwise_sum_rec f1 a = np.pairwise_sum_rec f2 a.
Proof.
  revert f2 a. induction f1 as [|f1 IH]; intros f2 a H1 H2.
  - destruct a as [|x a]; [|simpl in H1; lia].
    destruct f2; reflexivity.
  - cbn [np.pairwise_sum_rec]. cbv zeta.
    destruct (Nat.ltb_spec (length a) 8) as [L|L].
    { destruct f2; cbn [np.pairwise_sum_rec]; cbv zeta;
        destruct (Nat.ltb_spec (length a) 8); try lia; reflexivity. }
    destruct (Nat.leb_spec (length a) np.PW_BLOCKSIZE) as [B|B].
    { destruct f2; cbn [np.pairwise_sum_rec]; cbv zeta;
        destruct (Nat.ltb_spec (length a) 8); try lia;
        destruct (Nat.leb_spec (length a) np.PW_BLOCKSIZE); try lia;
        reflexivity. }
    unfold np.PW_BLOCKSIZE in B.
    destruct (half_block_bounds (length a) B) as [P Q].
    destruct f2 as [|f2]; [lia|].
    cbn [np.pairwise_sum_rec]. cbv zeta.
    destruct (Nat.ltb_spec (length a) 8); try lia.
    destruct (Nat.leb_spec (length a) np.PW_BLOCKSIZE) as [B'|B'];
      [unfold np.PW_BLOCKSIZE in B'; lia|].
    f_equal; apply IH;
      rewrite ?length_firstn, ?length_skipn; lia.
Qed.

(** The length of the array is fuel enough, and so is any larger number. *)
Lemma pairwise_sum_fuel (fuel : nat) (a : list np.float) :
  (length a <= fuel)%nat -> np.pairwise_sum_rec fuel a = np.pairwise_sum a.
Proof.
  intro H. unfold np.pairwise_sum. apply pairwise_sum_rec_fuel; lia.
Qed.

(** The recursion of [pairwise_sum], as the C function is written. *)
Lemma pairwise_sum_eq (a : list np.float) :
  np.pairwise_sum a =
  if (length a <? 8)%nat then np.sum_rest np.zero a
  else if (length a <=? np.PW_BLOCKSIZE)%nat then np.sum_block a
  else np.add32
         (np.pairwise_sum
            (firstn (length a / 2 - (length a / 2) mod 8) a))
         (np.pairwise_sum
            (skipn (length a / 2 - (length a / 2) mod 8) a)).
Proof.
  unfold np.pairwise_sum at 1.
  rewrite (pairwise_sum_rec_fuel (length a) (S (length a))) by lia.
  cbn [np.pairwise_sum_rec]. cbv zeta.
  destruct (Nat.ltb_spec (length a) 8) as [L|L]; [reflexivity|].
  destruct (Nat.leb_spec (length a) np.PW_BLOCKSIZE) as [B|B]; [reflexivity|].
  unfold np.PW_BLOCKSIZE in B.
  destruct (half_block_bounds (length a) B) as [P Q].
  rewrite !pairwise_sum_fuel; [reflexivity| |];
    rewrite ?length_firstn, ?length_skipn; lia.
Qed.

(** *** The energy of empty and of all-zero frames *)





(** The computation is total on the frames that decode. *)
Lemma is_speech_energy_float32_total (frame : bytes) :
  Nat.even (length frame) = true ->
  exists e b, rms_energy_float32 frame = Some e /\
              is_speech_energy_float32 frame = Some b.
Proof.
  intro E. destruct (frombuffer_even frame E) as (l & Hl & _).
  unfold is_speech_energy_float32, rms_energy_float32. rewrite Hl. cbv zeta.
  destruct (length _ =? 0)%nat; eauto.
Qed.

(** *** The threshold *)


End Float32.

(** ** Clock comparisons and trace bookkeeping *)

Lemma Qge_bool_true (a b : Q) : Qge_bool a b = true <-> b <= a.
Proof. unfold Qge_bool. apply Qle_bool_iff. Qed.

Lemma Qge_bool_false (a b : Q) : Qge_bool a b = false <-> a < b.
Proof.
  unfold Qge_bool. split; intro H.
  - apply Qnot_le_lt. intro L. apply Qle_bool_iff in L. congruence.
  - destruct (Qle_bool b a) eqn:E; [|reflexivity].
    apply Qle_bool_iff in E. exfalso. apply (Qlt_not_le _ _ H E).
Qed.

Lemma Qgt_bool_true (a b : Q) : Qgt_bool a b = true <-> b < a.
Proof.
  unfold Qgt_bool. rewrite negb_true_iff. split; intro H.
  - apply Qnot_le_lt. intro L. apply Qle_bool_iff in L. congruence.
  - destruct (Qle_bool a b) eqn:E; [|reflexivity].
    apply Qle_bool_iff in E. exfalso. apply (Qlt_not_le _ _ H E).
Qed.

Lemma not_final_print (l : list msg) : ~ In EvFinalResult (map EvPrint l).
Proof. induction l; simpl; [tauto | intros [H|H]; [discriminate | auto]]. Qed.

Lemma not_partial_print (l : list msg) : ~ In EvPartialResult (map EvPrint l).
Proof. induction l; simpl; [tauto | intros [H|H]; [discriminate | auto]]. Qed.

Lemma not_translate_print (l : list msg) (t : str) :
  ~ In (EvTranslate t) (map EvPrint l).
Proof. induction l; simpl; [tauto | intros [H|H]; [discriminate | auto]]. Qed.

Lemma not_say_print (l : list msg) (t lang : str) (p : Z) :
  ~ In (EvSay t lang p) (map EvPrint l).
Proof. induction l; simpl; [tauto | intros [H|H]; [discriminate | auto]]. Qed.

Lemma count_print (p : event -> bool) (l : list msg) :
  (forall m, p (EvPrint m) = false) -> count p (map EvPrint l) = 0%nat.
Proof.
  intro H. unfold count. induction l; simpl; [reflexivity|].
  rewrite H. assumption.
Qed.

Lemma count_app (p : event -> bool) (a b : list event) :
  count p (a ++ b) = (count p a + count p b)%nat.
Proof. unfold count. rewrite filter_app, length_app. reflexivity. Qed.

Lemma count_cons (p : event -> bool) (e : event) (l : list event) :
  count p (e :: l) = ((if p e then 1 else 0) + count p l)%nat.
Proof. unfold count. simpl. destruct (p e); reflexivity. Qed.

Lemma count_nil (p : event -> bool) : count p [] = 0%nat.
Proof. reflexivity. Qed.

Ltac count_events :=
  repeat (rewrite ?count_cons, ?count_app, ?count_nil;
          rewrite ?count_print by reflexivity);
  simpl; try reflexivity; try lia.

(** Case analysis of [segment_step] along the branches of the code. *)
Ltac step_cases H :=
  unfold segment_step in H;
  repeat (cbv beta iota in H;
          match type of H with
          | context [translate_text ?a ?b ?c ?d] =>
              destruct (translate_text a b c d) eqn:?
          | context [PartialResult ?r] => destruct (PartialResult r) eqn:?
          | context [FinalResult ?r] => destruct (FinalResult r) eqn:?
          | context [if ?c then _ else _] => destruct c eqn:?
          end);
  cbv beta iota in H; inversion H; subst; clear H.

Ltac in_events :=
  repeat match goal with
    | H : In _ (_ :: _) |- _ => destruct H as [H|H]; [try discriminate H|]
    | H : In _ (_ ++ _) |- _ => apply in_app_or in H; destruct H as [H|H]
    | H : In _ [] |- _ => destruct H
    | H : In EvFinalResult (map EvPrint _) |- _ => destruct (not_final_print _ H)
    | H : In EvPartialResult (map EvPrint _) |- _ => destruct (not_partial_print _ H)
    | H : In (EvTranslate _) (map EvPrint _) |- _ => destruct (not_translate_print _ _ H)
    | H : In (EvSay _ _ _) (map EvPrint _) |- _ => destruct (not_say_print _ _ _ _ H)
    end.

(** ** The loop: one frame *)

Section Segmenter.

Context {session : Type} {vosk : Recognizer session}.
Variable args : Args.
Variable tr : Argos.

Local Abbreviation step := (segment_step args tr).
Local Abbreviation run := (run_frames args tr).

(** A speech frame marks voice and never closes the phrase. *)
Lemma step_speech {st q frame now st' q' evs} :
  step st q true frame now = (st', q', evs) ->
  got_voice st' = true /\ last_voice_time st' = now /\ ~ finalizes evs.
Proof.
  intro H. step_cases H; simpl; repeat split; auto;
    unfold finalizes; intro F; in_events.
Qed.

(** A silence frame closes the phrase exactly when voice was heard and
    [PAUSE_MS] have elapsed since. *)
Lemma step_silence_close {st q frame now st' q' evs} :
  step st q false frame now = (st', q', evs) ->
  got_voice st = true ->
  PAUSE_MS <= elapsed_ms now (last_voice_time st) ->
  got_voice st' = false /\ rec st' = KaldiRecognizer /\
  partial_buf_text st' = [] /\ partial_last_emit st' = 0 /\
  finalizes evs /\ count is_final_result evs = 1%nat.
Proof.
  intros H G P. apply Qge_bool_true in P. unfold elapsed_ms in P.
  unfold segment_step in H. rewrite G, P in H. simpl andb in H. cbv iota in H.
  destruct (FinalResult _) as [res r'].
  destruct (truthy _); [destruct (translate_text _ _ _ _) as [t pr]|];
    inversion H; subst; clear H; repeat split; auto;
    try (unfold finalizes; simpl; tauto);
    count_events.
Qed.

Lemma step_silence_keep {st q frame now st' q' evs} :
  step st q false frame now = (st', q', evs) ->
  got_voice st = false \/ elapsed_ms now (last_voice_time st) < PAUSE_MS ->
  got_voice st' = got_voice st /\
  last_voice_time st' = last_voice_time st /\
  partial_buf_text st' = partial_buf_text st /\
  partial_last_emit st' = partial_last_emit st /\
  rec st' = AcceptWaveform (rec st) frame /\
  q' = q /\ evs = [EvAccept frame].
Proof.
  intros H C.
  assert (E : got_voice st
              && Qge_bool ((now - last_voice_time st) * 1000) PAUSE_MS = false).
  { destruct C as [C|C]; [rewrite C; reflexivity|].
    apply Qge_bool_false in C. unfold elapsed_ms in C. rewrite C.
    apply andb_false_r. }
  unfold segment_step in H. rewrite E in H.
  inversion H; subst; clear H. simpl. repeat split; auto.
Qed.

(** ** The loop: a sequence of frames *)

Lemma on_frame_classified st q {frame} now {b : bool} :
  is_speech_energy frame = Some b ->
  on_frame args tr st q frame now = Some (step st q b frame now).
Proof. intro H. unfold on_frame. rewrite H. reflexivity. Qed.

Lemma on_frame_inv {st q frame now st' q' evs} :
  on_frame args tr st q frame now = Some (st', q', evs) ->
  exists b, is_speech_energy frame = Some b /\
            step st q b frame now = (st', q', evs).
Proof.
  unfold on_frame. destruct (is_speech_energy frame) as [b|]; [|discriminate].
  intro H. exists b. split; [reflexivity | congruence].
Qed.

Lemma run_frames_app st q (l1 l2 : list (bytes * Q)) :
  run st q (l1 ++ l2) =
  match run st q l1 with
  | None => None
  | Some (st1, q1, t1) =>
      match run st1 q1 l2 with
      | None => None
      | Some (st2, q2, t2) => Some (st2, q2, t1 ++ t2)
      end
  end.
Proof.
  revert st q. induction l1 as [|[f now] l1 IH]; intros st q; simpl.
  - destruct (run st q l2) as [[[? ?] ?]|]; reflexivity.
  - destruct (on_frame args tr st q f now) as [[[st1 q1] evs]|]; [|reflexivity].
    rewrite IH.
    destruct (run st1 q1 l1) as [[[st2 q2] t1]|]; [|reflexivity].
    destruct (run st2 q2 l2) as [[[st3 q3] t2]|]; reflexivity.
Qed.

Lemma run_frames_length {st q inputs st' q' trace} :
  run st q inputs = Some (st', q', trace) -> length trace = length inputs.
Proof.
  revert st q st' q' trace.
  induction inputs as [|[f now] l IH]; intros st q st' q' trace H; simpl in H.
  - inversion H; reflexivity.
  - destruct (on_frame args tr st q f now) as [[[st1 q1] evs]|]; [|discriminate].
    destruct (run st1 q1 l) as [[[st2 q2] t]|] eqn:E; [|discriminate].
    inversion H; subst. simpl. f_equal. eapply IH; eassumption.
Qed.

(** The loop body returns on every classified frame: the loop runs through
    any sequence of them. *)
Lemma run_frames_total st q {inputs} :
  Forall classified inputs -> exists r, run st q inputs = Some r.
Proof.
  intro C. revert st q. induction C as [|[f now] l Hx _ IH]; intros st q.
  - simpl. eauto.
  - simpl. unfold classified in Hx. simpl in Hx.
    destruct (is_speech_energy f) as [b|] eqn:E; [|congruence].
    rewrite (on_frame_classified st q now E).
    destruct (step st q b f now) as [[st1 q1] evs].
    destruct (IH st1 q1) as [[[st2 q2] t] Hr]. rewrite Hr. eauto.
Qed.

Lemma run_frames_snoc {st q pre x st' q' trace} :
  run st q (pre ++ [x]) = Some (st', q', trace) ->
  exists st1 q1 t1 evs,
    run st q pre = Some (st1, q1, t1) /\
    on_frame args tr st1 q1 (fst x) (snd x) = Some (st', q', evs) /\
    trace = t1 ++ [evs].
Proof.
  intro H. rewrite run_frames_app in H.
  destruct (run st q pre) as [[[st1 q1] t1]|]; [|discriminate].
  destruct x as [f now]. simpl in H.
  destruct (on_frame args tr st1 q1 f now) as [[[st2 q2] evs]|] eqn:E;
    [|discriminate].
  inversion H; subst. exists st1, q1, t1, evs. simpl. auto.
Qed.

(** *** Open segments *)

Lemma speech_not_silence {x} : speech x -> silence x -> False.
Proof. unfold speech, silence. congruence. Qed.

Lemma open_segment_snoc pre x s :
  open_segment (pre ++ [x]) s ->
  (speech x /\ s = x) \/ (silence x /\ open_segment pre s /\ short s x).
Proof.
  intros (before & run0 & E & Hs & Hsil & Hshort).
  destruct (rev run0) as [|y r] eqn:R.
  - apply (f_equal (@rev _)) in R. rewrite rev_involutive in R. simpl in R. subst run0.
    apply app_inj_tail in E. destruct E as [_ ->]. left; auto.
  - apply (f_equal (@rev _)) in R. rewrite rev_involutive in R. simpl in R. subst run0.
    change (before ++ s :: rev r ++ [y]) with (before ++ (s :: rev r) ++ [y]) in E.
    rewrite app_assoc in E. apply app_inj_tail in E. destruct E as [-> ->].
    apply Forall_app in Hsil. destruct Hsil as [Hsil Hy].
    apply Forall_app in Hshort. destruct Hshort as [Hshort Hy'].
    inversion Hy; subst. inversion Hy'; subst.
    right. repeat split; auto. exists before, (rev r). auto.
Qed.

Lemma open_segment_unique {pre s s'} :
  open_segment pre s -> open_segment pre s' -> s = s'.
Proof.
  revert s s'. induction pre as [|x pre IH] using rev_ind; intros s s' H H'.
  - destruct H as (b & r & E & _). destruct b; discriminate.
  - apply open_segment_snoc in H. apply open_segment_snoc in H'.
    destruct H as [[Hx ->]|(Hx & H & _)]; destruct H' as [[Hx' ->]|(Hx' & H' & _)].
    + reflexivity.
    + destruct (speech_not_silence Hx Hx').
    + destruct (speech_not_silence Hx' Hx).
    + apply IH; assumption.
Qed.

Lemma open_segment_start pre x : speech x -> open_segment (pre ++ [x]) x.
Proof. intro H. exists pre, []. repeat split; auto. Qed.

Lemma open_segment_extend pre s x :
  open_segment pre s -> silence x -> short s x -> open_segment (pre ++ [x]) s.
Proof.
  intros (b & r & -> & Hs & Hsil & Hsh) Hx Hx'.
  exists b, (r ++ [x]). rewrite <- app_assoc. simpl. repeat split; auto.
  - apply Forall_app; auto.
  - apply Forall_app; auto.
Qed.

Lemma pause_crossed_iff pre x :
  pause_crossed pre x <->
  exists s, open_segment pre s /\ silence x /\
            PAUSE_MS <= elapsed_ms (snd x) (snd s).
Proof.
  unfold pause_crossed, open_segment, short. split.
  - intros (b & s & r & E & Hs & Hsil & Hx & Hsh & Hp).
    exists s. repeat split; auto. exists b, r. auto.
  - intros (s & (b & r & E & Hs & Hsil & Hsh) & Hx & Hp).
    exists b, s, r. auto 10.
Qed.

Lemma voice_recorded_run {q pre st q' trace} :
  run initial q pre = Some (st, q', trace) -> voice_recorded pre st.
Proof.
  revert st q' trace. induction pre as [|x pre IH] using rev_ind;
    intros st q' trace H.
  - simpl in H. inversion H; subst. unfold voice_recorded. simpl.
    intros s (b & r & E & _). destruct b; discriminate.
  - apply run_frames_snoc in H.
    destruct H as (st1 & q1 & t1 & evs & Hpre & Hx & _).
    specialize (IH _ _ _ Hpre).
    destruct (on_frame_inv Hx) as (b & C & Hstep); clear Hx; destruct b.
    + (* speech *)
      destruct (step_speech Hstep) as (G & L & _).
      unfold voice_recorded. rewrite G. exists x. split; auto.
      apply open_segment_start. exact C.
    + (* silence *)
      unfold voice_recorded in IH.
      destruct (got_voice st1) eqn:G.
      * destruct IH as (s & Hs & Hl).
        destruct (Qlt_le_dec (elapsed_ms (snd x) (last_voice_time st1)) PAUSE_MS)
          as [Lt|Ge].
        -- destruct (step_silence_keep Hstep (or_intror Lt))
             as (G' & L' & _).
           unfold voice_recorded. rewrite G', G. exists s. split; [|congruence].
           apply open_segment_extend; auto. unfold short. rewrite <- Hl. exact Lt.
        -- destruct (step_silence_close Hstep G Ge) as (G' & _).
           unfold voice_recorded. rewrite G'. intros s' Hs'.
           apply open_segment_snoc in Hs'.
           destruct Hs' as [[Hx _]|(_ & Hs' & Hsh)].
           ++ exact (speech_not_silence Hx C).
           ++ rewrite (open_segment_unique Hs' Hs) in Hsh. unfold short in Hsh.
              rewrite <- Hl in Hsh. exact (Qlt_not_le _ _ Hsh Ge).
      * destruct (step_silence_keep Hstep (or_introl G)) as (G' & _).
        unfold voice_recorded. rewrite G', G. intros s' Hs'.
        apply open_segment_snoc in Hs'.
        destruct Hs' as [[Hx _]|(_ & Hs' & _)].
        -- exact (speech_not_silence Hx C).
        -- exact (IH _ Hs').
Qed.

(** The frame [x] processed after [pre] closes the phrase exactly when it
    crosses the pause mark, and it calls [FinalResult] at most once. *)
Lemma frame_finalizes_iff {pre x st q st' q' evs} :
  voice_recorded pre st ->
  on_frame args tr st q (fst x) (snd x) = Some (st', q', evs) ->
  (finalizes evs <-> pause_crossed pre x) /\
  (count is_final_result evs <= 1)%nat /\
  (finalizes evs -> count is_final_result evs = 1%nat).
Proof.
  intros V Hx. rewrite pause_crossed_iff.
  destruct (on_frame_inv Hx) as (b & C & Hstep); clear Hx; destruct b.
  - destruct (step_speech Hstep) as (_ & _ & NF).
    assert (Z0 : count is_final_result evs = 0%nat).
    { clear - Hstep. step_cases Hstep; count_events. }
    repeat split; try tauto; try lia.
    intros (s & _ & Hsil & _). destruct (speech_not_silence C Hsil).
  - unfold voice_recorded in V. destruct (got_voice st) eqn:G.
    + destruct V as (s & Hs & Hl).
      destruct (Qlt_le_dec (elapsed_ms (snd x) (last_voice_time st)) PAUSE_MS)
        as [Lt|Ge].
      * destruct (step_silence_keep Hstep (or_intror Lt))
          as (_ & _ & _ & _ & _ & _ & ->).
        unfold finalizes. simpl. repeat split; try tauto; try (count_events; fail).
        -- intros [F|[]]; discriminate.
        -- intros (s' & Hs' & _ & Hp).
           rewrite (open_segment_unique Hs' Hs), <- Hl in Hp.
           exfalso. exact (Qlt_not_le _ _ Lt Hp).
        -- intros [F|[]]; discriminate.
      * destruct (step_silence_close Hstep G Ge)
          as (_ & _ & _ & _ & F & Cn).
        repeat split; auto; try lia.
        intros _. exists s. rewrite <- Hl. auto.
    + destruct (step_silence_keep Hstep (or_introl G))
        as (_ & _ & _ & _ & _ & _ & ->).
      unfold finalizes. simpl. repeat split; try tauto; try (count_events; fail).
      * intros [F|[]]; discriminate.
      * intros (s' & Hs' & _). exfalso. exact (V _ Hs').
      * intros [F|[]]; discriminate.
Qed.

Lemma run_frames_classified st q inputs (cls : list bool) :
  Forall2 (fun x c => is_speech_energy (fst x) = Some c) inputs cls ->
  run st q inputs = Some (run_classified args tr st q (combine cls inputs)).
Proof.
  intro H. revert st q. induction H as [|[f now] c l cl Hc _ IH]; intros st q.
  - reflexivity.
  - simpl in Hc. simpl. rewrite (on_frame_classified st q now Hc).
    destruct (step st q c f now) as [[st1 q1] evs]. rewrite IH.
    destruct (run_classified args tr st1 q1 (combine cl l)) as [[st2 q2] t].
    reflexivity.
Qed.

Lemma count_pos_final evs :
  (0 < count is_final_result evs)%nat -> finalizes evs.
Proof.
  unfold count, finalizes. induction evs as [|e evs IH]; simpl; [lia|].
  destruct e; simpl; auto.
Qed.

Lemma nth_frame {A : Type} (t0 : list A) (e : A) (t2 : list A) (d : A) n :
  length t0 = n -> nth n (t0 ++ e :: t2) d = e.
Proof. intros <-. apply nth_middle. Qed.

(** Every frame of a run, wherever it stands, closes the phrase exactly
    when it crosses the pause mark. *)
Lemma run_finalizes_at q inputs :
  Forall classified inputs ->
  exists st' q' trace,
    run initial q inputs = Some (st', q', trace) /\
    length trace = length inputs /\
    forall pre x post, inputs = pre ++ x :: post ->
      (finalizes (nth (length pre) trace []) <-> pause_crossed pre x) /\
      (count is_final_result (nth (length pre) trace []) <= 1)%nat /\
      (finalizes (nth (length pre) trace []) ->
       count is_final_result (nth (length pre) trace []) = 1%nat).
Proof.
  intro C. destruct (run_frames_total initial q C) as [[[st' q'] trace] R].
  exists st', q', trace. split; [exact R|]. split.
  - eapply run_frames_length; eassumption.
  - intros pre x post ->.
    change (pre ++ x :: post) with (pre ++ [x] ++ post) in R.
    rewrite app_assoc, run_frames_app in R.
    destruct (run initial q (pre ++ [x])) as [[[st1 q1] t1]|] eqn:R1;
      [|discriminate].
    destruct (run st1 q1 post) as [[[st2 q2] t2]|]; [|discriminate].
    inversion R; subst; clear R.
    destruct (run_frames_snoc R1) as (st0 & q0 & t0 & evs & R0 & Hx & ->).
    rewrite <- app_assoc. simpl app.
    rewrite (nth_frame t0 evs t2 []) by (eapply run_frames_length; eassumption).
    eapply frame_finalizes_iff; [|eassumption].
    eapply voice_recorded_run; eassumption.
Qed.

(** Within one silence run the pause mark is crossed once. *)
Lemma pause_crossed_once pre x mid z :
  pause_crossed pre x -> Forall silence mid ->
  ~ pause_crossed (pre ++ x :: mid) z.
Proof.
  intros Hx Hmid Hz.
  apply pause_crossed_iff in Hx. destruct Hx as (s & Hs & Sx & Px).
  apply pause_crossed_iff in Hz. destruct Hz as (s' & Hs' & _).
  assert (O : open_segment (pre ++ [x]) s').
  { clear - Hmid Hs'. revert Hs'.
    induction mid as [|m mid IH] using rev_ind; intro Hs'; [exact Hs'|].
    apply Forall_app in Hmid. destruct Hmid as [Hmid Hm]. inversion Hm; subst.
    apply IH; [assumption|].
    change (pre ++ x :: mid ++ [m]) with (pre ++ (x :: mid) ++ [m]) in Hs'.
    rewrite app_assoc in Hs'. apply open_segment_snoc in Hs'.
    destruct Hs' as [[Sp _]|(_ & O & _)]; [|exact O].
    destruct (speech_not_silence Sp H1). }
  apply open_segment_snoc in O. destruct O as [[Sp _]|(_ & O & Sh)].
  - exact (speech_not_silence Sp Sx).
  - rewrite (open_segment_unique O Hs) in Sh. exact (Qlt_not_le _ _ Sh Px).
Qed.

End Segmenter.

(** ** The loop: what is emitted *)

Section Emissions.

Context {session : Type} {vosk : Recognizer session}.
Variable args : Args.
Variable tr : Argos.

Local Abbreviation step := (segment_step args tr).
Local Abbreviation run := (run_frames args tr).

Lemma worth_emitting_guard (st : Loop session) partial :
  truthy partial && negb (str_eqb partial (partial_buf_text st))
  && (MIN_PARTIAL_CHARS <=? length partial)%nat = true
  <-> worth_emitting st partial.
Proof.
  unfold worth_emitting.
  rewrite !andb_true_iff, negb_true_iff, Nat.leb_le, truthy_true.
  split.
  - intros [[_ N] L]. split; [|exact L].
    intro E. apply str_eqb_eq in E. congruence.
  - intros [N L]. repeat split; [| |exact L].
    + intros ->. unfold MIN_PARTIAL_CHARS in L. simpl in L. lia.
    + destruct (str_eqb partial (partial_buf_text st)) eqn:E; [|reflexivity].
      apply str_eqb_eq in E. contradiction.
Qed.

(** A speech frame, partials enabled, interval elapsed, candidate worth
    emitting: the candidate is translated and said with priority 0. *)
Lemma step_partial_emitted st q frame now :
  partials args = true -> interval_elapsed st now ->
  worth_emitting st (candidate_partial st frame) ->
  let partial := candidate_partial st frame in
  let out := fst (translate_text tr (src args) (tgt args) partial) in
  let printed := snd (translate_text tr (src args) (tgt args) partial) in
  step st q true frame now =
  ({| rec := snd (PartialResult (AcceptWaveform (rec st) frame));
      last_voice_time := now; got_voice := true;
      partial_buf_text := partial; partial_last_emit := now |},
   say q out (tgt args) 0,
   [EvAccept frame; EvPartialResult; EvTranslate partial]
     ++ map EvPrint printed ++ [EvSay out (tgt args) 0]).
Proof.
  intros P I W. cbv zeta. unfold segment_step.
  apply Qgt_bool_true in I. unfold interval_elapsed, elapsed_ms in I.
  rewrite P, I. cbn [andb]. unfold candidate_partial in *.
  destruct (PartialResult (AcceptWaveform (rec st) frame)) as [res rec2].
  cbn [fst snd] in *.
  apply worth_emitting_guard in W. rewrite W.
  destruct (translate_text tr (src args) (tgt args) (strip (opt_or_empty res))).
  reflexivity.
Qed.

(** Otherwise a speech frame emits nothing and leaves the partial state. *)
Lemma step_partial_withheld st q frame now st' q' evs :
  step st q true frame now = (st', q', evs) ->
  ~ (partials args = true /\ interval_elapsed st now /\
     worth_emitting st (candidate_partial st frame)) ->
  q' = q /\
  partial_buf_text st' = partial_buf_text st /\
  partial_last_emit st' = partial_last_emit st /\
  (evs = [EvAccept frame] \/ evs = [EvAccept frame; EvPartialResult]).
Proof.
  intros H N. unfold segment_step in H.
  destruct (partials args && Qgt_bool ((now - partial_last_emit st) * 1000)
                                      PARTIAL_EVERY) eqn:G.
  - apply andb_true_iff in G. destruct G as [P I].
    apply Qgt_bool_true in I.
    unfold candidate_partial in N.
    destruct (PartialResult (AcceptWaveform (rec st) frame)) as [res rec2].
    cbn [fst] in N.
    destruct (truthy (strip (opt_or_empty res))
              && negb (str_eqb (strip (opt_or_empty res)) (partial_buf_text st))
              && (MIN_PARTIAL_CHARS <=? length (strip (opt_or_empty res)))%nat)
      eqn:W.
    + exfalso. apply N. apply worth_emitting_guard in W. auto.
    + inversion H; subst; simpl; auto.
  - inversion H; subst; simpl; auto.
Qed.

Lemma interval_elapsed_dec (st : Loop session) now :
  {interval_elapsed st now} + {~ interval_elapsed st now}.
Proof.
  unfold interval_elapsed.
  destruct (Qlt_le_dec PARTIAL_EVERY (elapsed_ms now (partial_last_emit st)))
    as [L|L]; [left; exact L | right; intro H; exact (Qlt_not_le _ _ H L)].
Qed.

Lemma str_eq_dec (a b : str) : {a = b} + {a <> b}.
Proof. apply list_eq_dec, N.eq_dec. Qed.

Lemma emission_dec (st : Loop session) frame now :
  {partials args = true /\ interval_elapsed st now /\
   worth_emitting st (candidate_partial st frame)}
  + {~ (partials args = true /\ interval_elapsed st now /\
        worth_emitting st (candidate_partial st frame))}.
Proof.
  destruct (partials args); [|right; intros (P & _); discriminate].
  destruct (interval_elapsed_dec st now) as [I|I]; [|right; tauto].
  unfold worth_emitting.
  destruct (str_eq_dec (candidate_partial st frame) (partial_buf_text st));
    [right; tauto|].
  destruct (le_dec MIN_PARTIAL_CHARS (length (candidate_partial st frame)));
    [left; auto | right; tauto].
Qed.

(** What a frame that emits a partial tells about the state. *)
Lemma step_emits_partial {st q b frame now st' q' evs p} :
  step st q b frame now = (st', q', evs) ->
  emits_partial evs p ->
  b = true /\ p <> partial_buf_text st /\
  (MIN_PARTIAL_CHARS <= length p)%nat /\ partial_buf_text st' = p.
Proof.
  intros H [HP HT]. destruct b.
  - destruct (emission_dec st frame now) as [(P & I & W)|N].
    + rewrite (step_partial_emitted st q frame now P I W) in H.
      inversion H; subst; clear H. in_events.
      inversion HT; subst. destruct W. auto.
    + destruct (step_partial_withheld _ _ _ _ _ _ _ H N) as (_ & _ & _ & [-> | ->]);
        in_events.
  - exfalso. clear HT. step_cases H; in_events.
Qed.

(** A frame that neither closes the phrase nor emits a partial keeps the
    last emitted partial. *)
Lemma step_keeps_partial {st q b frame now st' q' evs} :
  step st q b frame now = (st', q', evs) ->
  ~ finalizes evs -> (forall p, ~ emits_partial evs p) ->
  partial_buf_text st' = partial_buf_text st.
Proof.
  intros H NF NP. destruct b.
  - destruct (emission_dec st frame now) as [(P & I & W)|N].
    + rewrite (step_partial_emitted st q frame now P I W) in H.
      inversion H; subst; clear H.
      exfalso. apply (NP (candidate_partial st frame)).
      split; simpl; auto.
    + apply (step_partial_withheld _ _ _ _ _ _ _ H N).
  - step_cases H; simpl; auto; exfalso; apply NF; unfold finalizes; simpl; auto.
Qed.

Lemma run_frames_split {st q inputs st' q'} t1 t2 :
  run st q inputs = Some (st', q', t1 ++ t2) ->
  exists i1 i2 st1 q1,
    inputs = i1 ++ i2 /\
    run st q i1 = Some (st1, q1, t1) /\
    run st1 q1 i2 = Some (st', q', t2).
Proof.
  revert st q inputs. induction t1 as [|e t1 IH]; intros st q inputs H.
  - exists [], inputs, st, q. auto.
  - destruct inputs as [|[f now] l]; simpl in H; [inversion H|].
    destruct (on_frame args tr st q f now) as [[[sa qa] evs]|] eqn:E;
      [|discriminate].
    destruct (run sa qa l) as [[[sb qb] t]|] eqn:R; [|discriminate].
    inversion H; subst; clear H.
    destruct (IH _ _ _ R) as (i1 & i2 & s1 & q1 & -> & R1 & R2).
    exists ((f, now) :: i1), i2, s1, q1. simpl. rewrite E, R1. auto.
Qed.

Lemma run_keeps_partial {st q inputs st' q' trace} :
  run st q inputs = Some (st', q', trace) ->
  Forall (fun e => ~ finalizes e /\ forall p, ~ emits_partial e p) trace ->
  partial_buf_text st' = partial_buf_text st.
Proof.
  revert st q st' q' trace.
  induction inputs as [|[f now] l IH]; intros st q st' q' trace H F; simpl in H.
  - inversion H; reflexivity.
  - destruct (on_frame args tr st q f now) as [[[sa qa] evs]|] eqn:E;
      [|discriminate].
    destruct (run sa qa l) as [[[sb qb] t]|] eqn:R; [|discriminate].
    inversion H; subst; clear H. inversion F as [|? ? [NF NP] F']; subst.
    rewrite (IH _ _ _ _ _ R F').
    destruct (on_frame_inv args tr E) as (b & _ & Hstep).
    exact (step_keeps_partial Hstep NF NP).
Qed.

End Emissions.

(** ** The loop: recogniser sessions and the order of utterances *)

Lemma protocol_prints (b : bool) (l : list msg) (rest : list event) :
  session_protocol b (map EvPrint l ++ rest) = session_protocol b rest.
Proof. induction l; simpl; auto. Qed.

Lemma protocol_app (b : bool) (l1 l2 : list event) :
  session_protocol b l1 = true ->
  session_protocol b (l1 ++ l2) = session_protocol false l2.
Proof.
  revert b. induction l1 as [|e l1 IH]; intros b H; simpl in *.
  - destruct b; [discriminate | reflexivity].
  - destruct e; try (apply IH; exact H);
      apply andb_true_iff in H; destruct H as [H1 H2]; rewrite H1; simpl;
      apply IH; exact H2.
Qed.

Lemma replay_says_app (q : queue) (a b : list event) :
  replay_says q (a ++ b) = replay_says (replay_says q a) b.
Proof.
  revert q. induction a as [|e a IH]; intro q; simpl; [reflexivity|].
  destruct e; apply IH.
Qed.

Lemma replay_says_prints (q : queue) (l : list msg) :
  replay_says q (map EvPrint l) = q.
Proof. induction l; simpl; auto. Qed.

Section Sessions.

Context {session : Type} {vosk : Recognizer session}.
Variable args : Args.
Variable tr : Argos.

Local Abbreviation step := (segment_step args tr).
Local Abbreviation run := (run_frames args tr).

Ltac protocol :=
  simpl; rewrite <- ?app_assoc; rewrite ?protocol_prints; simpl; reflexivity.

(** Per frame: the session is fed first; if [FinalResult] is called, the
    session is replaced at the end of the same frame. *)
Lemma step_protocol {st q b frame now st' q' evs} :
  step st q b frame now = (st', q', evs) ->
  session_protocol false evs = true /\
  count is_new_recognizer evs = count is_final_result evs.
Proof.
  intro H. step_cases H; split; try protocol; count_events.
Qed.

(** A frame that closes the phrase leaves the locals as at start-up, but
    for [last_voice_time]. *)
Lemma step_finalizes_resets {st q b frame now st' q' evs} :
  step st q b frame now = (st', q', evs) ->
  finalizes evs ->
  st' = set_voice_time (last_voice_time st) initial.
Proof.
  intros H F. unfold finalizes in F.
  step_cases H; in_events; reflexivity.
Qed.

Lemma step_replay {st q b frame now st' q' evs} :
  step st q b frame now = (st', q', evs) -> q' = replay_says q evs.
Proof.
  intro H. step_cases H; simpl;
    rewrite ?replay_says_app, ?replay_says_prints; reflexivity.
Qed.

(** Per frame: at most one [tts.say]; one with priority 1 is the last call
    before the session is replaced, after [FinalResult]; one with priority
    0 comes from a frame that does not close the phrase. *)
Lemma step_says {st q b frame now st' q' evs} :
  step st q b frame now = (st', q', evs) ->
  (count is_say evs <= 1)%nat /\
  forall t l p, In (EvSay t l p) evs ->
    (p = 1%Z /\ exists a, evs = a ++ [EvSay t l 1; EvNewRecognizer] /\
                          In EvFinalResult a)
    \/ (p = 0%Z /\ In EvPartialResult evs /\ ~ finalizes evs).
Proof.
  intro H. step_cases H; (split; [count_events|]);
    intros say_text say_lang say_prio Hin;
    in_events; inversion Hin; subst; clear Hin.
  - right. split; [reflexivity|]. split; [simpl; auto|].
    unfold finalizes. intro F. in_events.
  - left. split; [reflexivity|].
    eexists ([EvAccept frame; EvFinalResult] ++ _ :: _ :: map EvPrint _ ++ [_]).
    split; [simpl; rewrite <- !app_assoc; reflexivity | simpl; auto].
Qed.

Lemma run_protocol {st q inputs st' q' trace} :
  run st q inputs = Some (st', q', trace) ->
  session_protocol false (concat trace) = true /\
  count is_new_recognizer (concat trace) = count is_final_result (concat trace) /\
  q' = replay_says q (concat trace) /\
  Forall (fun evs =>
            (count is_say evs <= 1)%nat /\
            forall t l p, In (EvSay t l p) evs ->
              (p = 1%Z /\ exists a, evs = a ++ [EvSay t l 1; EvNewRecognizer] /\
                                    In EvFinalResult a)
              \/ (p = 0%Z /\ In EvPartialResult evs /\ ~ finalizes evs))
         trace.
Proof.
  revert st q st' q' trace.
  induction inputs as [|[f now] l IH]; intros st q st' q' trace H; simpl in H.
  - inversion H; subst. simpl. repeat split; auto.
  - destruct (on_frame args tr st q f now) as [[[sa qa] evs]|] eqn:E;
      [|discriminate].
    destruct (run sa qa l) as [[[sb qb] t]|] eqn:R; [|discriminate].
    inversion H; subst; clear H.
    destruct (on_frame_inv args tr E) as (b & _ & Hstep).
    destruct (IH _ _ _ _ _ R) as (P & C & Q & F).
    destruct (step_protocol Hstep) as (P1 & C1).
    simpl concat. repeat split.
    + rewrite (protocol_app false evs (concat t) P1). exact P.
    + rewrite !count_app. lia.
    + rewrite replay_says_app, <- (step_replay Hstep). exact Q.
    + constructor; [exact (step_says Hstep) | exact F].
Qed.

(** While no voice is recorded [last_voice_time] is not read. *)
Lemma step_voice_time (t : Q) st q b frame now :
  got_voice st = false ->
  step (set_voice_time t st) q b frame now =
  let '(s', q', evs) := step st q b frame now in
  (if got_voice s' then s' else set_voice_time t s', q', evs).
Proof.
  intro G. unfold segment_step, set_voice_time.
  cbn [rec last_voice_time got_voice partial_buf_text partial_last_emit].
  rewrite G. cbn [andb]. destruct b.
  - destruct (partials args && _); [|reflexivity].
    destruct (PartialResult _) as [res rec2].
    destruct (_ && _); [|reflexivity].
    destruct (translate_text _ _ _ _). reflexivity.
  - reflexivity.
Qed.

Lemma run_voice_time (t : Q) {st q inputs st' q' trace} :
  got_voice st = false ->
  run st q inputs = Some (st', q', trace) ->
  exists st'', run (set_voice_time t st) q inputs = Some (st'', q', trace).
Proof.
  revert st q st' q' trace.
  induction inputs as [|[f now] l IH]; intros st q st' q' trace G H; simpl in H.
  - inversion H; subst. simpl. eauto.
  - destruct (on_frame args tr st q f now) as [[[sa qa] evs]|] eqn:E;
      [|discriminate].
    destruct (run sa qa l) as [[[sb qb] tb]|] eqn:R; [|discriminate].
    inversion H; subst; clear H.
    destruct (on_frame_inv args tr E) as (b & C & Hstep).
    simpl. rewrite (on_frame_classified args tr _ q now C).
    rewrite (step_voice_time t st q b f now G), Hstep.
    destruct (got_voice sa) eqn:Ga.
    + rewrite R. eauto.
    + destruct (IH _ _ _ _ _ Ga R) as (s'' & R'). rewrite R'. eauto.
Qed.

(** After a frame that closes the phrase, the rest of the run is the run
    the loop would make from start-up on the later frames alone. *)
Lemma run_restarts {q pre x post st' q' trace} :
  run initial q (pre ++ x :: post) = Some (st', q', trace) ->
  finalizes (nth (length pre) trace []) ->
  exists st1 q1 t1 st2,
    run initial q (pre ++ [x]) = Some (st1, q1, t1) /\
    run initial q1 post = Some (st2, q', skipn (S (length pre)) trace).
Proof.
  intros R F.
  change (pre ++ x :: post) with (pre ++ [x] ++ post) in R.
  rewrite app_assoc, run_frames_app in R.
  destruct (run initial q (pre ++ [x])) as [[[st1 q1] t1]|] eqn:R1;
    [|discriminate].
  destruct (run st1 q1 post) as [[[st2 q2] t2]|] eqn:R2; [|discriminate].
  inversion R; subst; clear R.
  destruct (run_frames_snoc args tr R1) as (s0 & q0 & t0 & evs & R0 & Hx & ->).
  pose proof (run_frames_length args tr R0) as L0.
  rewrite <- app_assoc in F. simpl app in F.
  rewrite (nth_frame t0 evs t2 [] _ L0) in F.
  destruct (on_frame_inv args tr Hx) as (b & _ & Hstep).
  pose proof (step_finalizes_resets Hstep F) as ->.
  destruct (run_voice_time 0 (st := set_voice_time (last_voice_time s0) initial)
              eq_refl R2) as (s'' & R').
  exists (set_voice_time (last_voice_time s0) initial), q1, (t0 ++ [evs]), s''.
  split; [reflexivity|].
  replace (skipn (S (length pre)) ((t0 ++ [evs]) ++ t2)) with t2; [exact R'|].
  rewrite <- L0.
  replace (S (length t0)) with (length (t0 ++ [evs]))
    by (rewrite length_app; simpl; lia).
  rewrite skipn_app, skipn_all, Nat.sub_diag. reflexivity.
Qed.

End Sessions.

(** ** The loop: chunks *)





Section Chunks.

Context {session : Type} {vosk : Recognizer session}.
Variable args : Args.
Variable tr : Argos.

Lemma for_offsets_frames offsets chunk stamp st q :
  for_offsets args tr offsets chunk stamp st q =
  run_frames args tr st q
    (map (fun i => (slice chunk i, stamp i))
         (filter (fun i => negb (length (slice chunk i) <? frame_bytes)%nat)
                 offsets)).
Proof.
  revert st q. induction offsets as [|i offs IH]; intros st q; simpl.
  - reflexivity.
  - destruct (length (slice chunk i) <? frame_bytes)%nat; simpl.
    + apply IH.
    + destruct (on_frame args tr st q (slice chunk i) (stamp i))
        as [[[s1 q1] evs]|]; [|reflexivity].
      rewrite IH. reflexivity.
Qed.

(** The [for] loop is the loop body run over the full frames of the chunk. *)
Lemma process_chunk_frames st q chunk stamp :
  process_chunk args tr st q chunk stamp =
  run_frames args tr st q (frames_of_chunk chunk stamp).
Proof. unfold process_chunk, frames_of_chunk. apply for_offsets_frames. Qed.



End Chunks.

(* ================================================================== *)
(** * Claims *)
(* ================================================================== *)

Lemma capture_classified t0 voiced n :
  Forall classified (capture t0 voiced n loud quiet).
Proof.
  unfold capture. apply Forall_forall. intros x Hx.
  apply in_map_iff in Hx. destruct Hx as (k & <- & _).
  unfold classified. simpl.
  destruct (k <? voiced)%nat;
    [rewrite loud_is_speech | rewrite quiet_is_silence]; discriminate.
Qed.

Lemma capture_classes t0 voiced n :
  Forall2 (fun x c => is_speech_energy (fst x) = Some c)
          (capture t0 voiced n loud quiet)
          (map (fun k => (k <? voiced)%nat) (seq 0 n)).
Proof.
  unfold capture. generalize (seq 0 n) as l.
  induction l as [|k l IH]; simpl; constructor; auto.
  simpl. destruct (k <? voiced)%nat;
    [apply loud_is_speech | apply quiet_is_silence].
Qed.

(** C1. For every sequence of classified frames the loop runs through, and
    the frame at any position calls [FinalResult] exactly once if it crosses
    the pause mark (it is a silence frame, a speech frame precedes its
    silence run, [PAUSE_MS] have elapsed since that speech frame, and had
    not at any earlier frame of the run) and not at all otherwise; later
    frames of the same silence run do not finalize again. *)
Theorem segmenter_finalizes_on_pause
    {session : Type} {vosk : Recognizer session} (args : Args) (tr : Argos)
    (q : queue) (inputs : list (bytes * Q)) :
  Forall classified inputs ->
  exists st' q' trace,
    run_frames args tr initial q inputs = Some (st', q', trace) /\
    length trace = length inputs /\
    (forall pre x post, inputs = pre ++ x :: post ->
       (count is_final_result (nth (length pre) trace []) = 1%nat
        <-> pause_crossed pre x) /\
       (count is_final_result (nth (length pre) trace []) = 0%nat
        <-> ~ pause_crossed pre x)) /\
    (forall pre x mid z post, inputs = pre ++ x :: mid ++ z :: post ->
       pause_crossed pre x -> Forall silence mid ->
       count is_final_result (nth (length (pre ++ x :: mid)) trace []) = 0%nat).
Proof.
  intro C.
  destruct (run_finalizes_at args tr q inputs C) as (st' & q' & trace & R & L & P).
  exists st', q', trace. split; [exact R|]. split; [exact L|]. split.
  - intros pre x post E. destruct (P pre x post E) as (I & Le & One).
    split; split.
    + intro H. apply I. apply count_pos_final. lia.
    + intro X. apply One, I, X.
    + intros H X. apply I, One in X. lia.
    + intro NX.
      destruct (count is_final_result (nth (length pre) trace [])) as [|n] eqn:En;
        [reflexivity|].
      exfalso. apply NX, I. apply count_pos_final. lia.
  - intros pre x mid z post E X S.
    assert (E' : inputs = (pre ++ x :: mid) ++ z :: post).
    { rewrite E, <- app_assoc. reflexivity. }
    destruct (P _ _ _ E') as (I & Le & One).
    destruct (count is_final_result (nth (length (pre ++ x :: mid)) trace []))
      as [|n] eqn:En; [reflexivity|].
    exfalso. apply (pause_crossed_once pre x mid z X S). apply I.
    apply count_pos_final. lia.
Qed.

(** Ten speech frames then thirty silence frames, one every 30 ms. *)
Lemma segmenter_finalizes_on_pause_witness :
  exists st' q' trace,
    run_frames (vosk := mute)
      (es_to_en false) es_en (initial (vosk := mute)) []
      (capture 1000 10 40 loud quiet) = Some (st', q', trace) /\
    length trace = length (capture 1000 10 40 loud quiet) /\
    (forall pre x post, capture 1000 10 40 loud quiet = pre ++ x :: post ->
       (count is_final_result (nth (length pre) trace []) = 1%nat
        <-> pause_crossed pre x) /\
       (count is_final_result (nth (length pre) trace []) = 0%nat
        <-> ~ pause_crossed pre x)) /\
    (forall pre x mid z post,
       capture 1000 10 40 loud quiet = pre ++ x :: mid ++ z :: post ->
       pause_crossed pre x -> Forall silence mid ->
       count is_final_result (nth (length (pre ++ x :: mid)) trace []) = 0%nat).
Proof.
  apply (segmenter_finalizes_on_pause
           (vosk := mute)
           (es_to_en false) es_en [] (capture 1000 10 40 loud quiet)).
  apply capture_classified.
Defined.

(** The scenario evaluated: the only [FinalResult] call is made by frame 36,
    the first silence frame at least 800 ms after the last speech frame
    (frame 9). *)
Example scenario_one_finalize :
  option_map (fun r => map (count is_final_result) (snd r))
    (run_frames (vosk := mute)
       (es_to_en false) es_en (initial (vosk := mute)) []
       (capture 1000 10 40 loud quiet))
  = Some (repeat 0%nat 36 ++ [1%nat] ++ repeat 0%nat 3).
Proof.
  rewrite (run_frames_classified _ _ _ _ _ _ (capture_classes 1000 10 40)).
  vm_compute. reflexivity.
Qed.



(** Over clock readings, [partial_last_emit] holds [0.0] or a clock reading
    at every frame of a run: line 317 stores the reading, line 324 stores
    [0.0], and no other line assigns it. *)
Lemma step_keeps_emission_stamp
    {session : Type} {vosk : Recognizer session} (args : Args) (tr : Argos)
    {st : Loop session} {q b frame now st' q' evs} :
  segment_step args tr st q b frame now = (st', q', evs) ->
  clock_reading now -> emission_stamp (partial_last_emit st) ->
  emission_stamp (partial_last_emit st').
Proof.
  intros H N L.
  step_cases H; cbn [partial_last_emit]; auto;
    try (right; exact N); left; reflexivity.
Qed.

Lemma run_keeps_emission_stamp
    {session : Type} {vosk : Recognizer session} (args : Args) (tr : Argos)
    {st : Loop session} {q inputs st' q' trace} :
  run_frames args tr st q inputs = Some (st', q', trace) ->
  Forall (fun x => clock_reading (snd x)) inputs ->
  emission_stamp (partial_last_emit st) ->
  emission_stamp (partial_last_emit st').
Proof.
  revert st q st' q' trace.
  induction inputs as [|[f now] l IH]; intros st q st' q' trace H F L;
    simpl in H.
  - inversion H; subst. exact L.
  - destruct (on_frame args tr st q f now) as [[[sa qa] evs]|] eqn:E;
      [|discriminate].
    destruct (run_frames args tr sa qa l) as [[[sb qb] t]|] eqn:R;
      [|discriminate].
    inversion H; subst; clear H. inversion F as [|? ? N F']; subst.
    destruct (on_frame_inv args tr E) as (b & _ & Hstep).
    apply (IH _ _ _ _ _ R F').
    exact (step_keeps_emission_stamp args tr Hstep N L).
Qed.


(** C6 (amended). In every run, a partial is emitted only with at least
    [MIN_PARTIAL_CHARS] characters, and it differs from the partial emitted
    before it when no phrase was closed in between (the comparison text is
    cleared when a phrase is closed). *)
Theorem partials_differ_within_segment
    {session : Type} {vosk : Recognizer session} (args : Args) (tr : Argos)
    (q : queue) (inputs : list (bytes * Q))
    (st' : Loop session) (q' : queue) (trace : list (list event)) :
  run_frames args tr initial q inputs = Some (st', q', trace) ->
  (forall evs p, In evs trace -> emits_partial evs p ->
     (MIN_PARTIAL_CHARS <= length p)%nat) /\
  (forall t1 e1 mid e2 t2 p1 p2,
     trace = t1 ++ e1 :: mid ++ e2 :: t2 ->
     emits_partial e1 p1 -> emits_partial e2 p2 ->
     Forall (fun e => ~ finalizes e /\ forall p, ~ emits_partial e p) mid ->
     p1 <> p2).
Proof.
  intro R. split.
  - intros evs p Hin Hp.
    apply in_split in Hin. destruct Hin as (t1 & t2 & ->).
    destruct (run_frames_split args tr t1 (evs :: t2) R)
      as (i1 & i2 & s1 & q1 & _ & _ & R2).
    destruct i2 as [|[f now] i2]; simpl in R2; [inversion R2|].
    destruct (on_frame args tr s1 q1 f now) as [[[sa qa] ea]|] eqn:E;
      [|discriminate].
    destruct (run_frames args tr sa qa i2) as [[[sb qb] tb]|]; [|discriminate].
    inversion R2; subst; clear R2.
    destruct (on_frame_inv args tr E) as (b & _ & Hstep).
    apply (step_emits_partial args tr Hstep Hp).
  - intros t1 e1 mid e2 t2 p1 p2 -> H1 H2 Hmid.
    destruct (run_frames_split args tr t1 (e1 :: mid ++ e2 :: t2) R)
      as (i1 & i2 & s1 & q1 & _ & _ & R2).
    destruct i2 as [|[f now] i2]; simpl in R2; [inversion R2|].
    destruct (on_frame args tr s1 q1 f now) as [[[sa qa] ea]|] eqn:E;
      [|discriminate].
    destruct (run_frames args tr sa qa i2) as [[[sb qb] tb]|] eqn:R3;
      [|discriminate].
    inversion R2; subst; clear R2.
    destruct (on_frame_inv args tr E) as (b & _ & Hstep).
    destruct (step_emits_partial args tr Hstep H1) as (_ & _ & _ & B1).
    destruct (run_frames_split args tr mid (e2 :: t2) R3)
      as (j1 & j2 & s2 & q2 & _ & Rmid & R4).
    pose proof (run_keeps_partial args tr Rmid Hmid) as Keep.
    destruct j2 as [|[f2 now2] j2]; simpl in R4; [inversion R4|].
    destruct (on_frame args tr s2 q2 f2 now2) as [[[sc qc] ec]|] eqn:E2;
      [|discriminate].
    destruct (run_frames args tr sc qc j2) as [[[sd qd] td]|]; [|discriminate].
    inversion R4; subst; clear R4.
    destruct (on_frame_inv args tr E2) as (b2 & _ & Hstep2).
    destruct (step_emits_partial args tr Hstep2 H2) as (_ & N & _).
    congruence.
Qed.

(** C4. In every run, reading the calls in order, each [FinalResult] is
    followed by the construction of a new recogniser before any further
    frame is fed; a recogniser is constructed only then, so once per
    finalize; and when the last frame processed closed a phrase the live
    session is a fresh [KaldiRecognizer]. *)
Theorem recognizer_replaced_after_finalize
    {session : Type} {vosk : Recognizer session} (args : Args) (tr : Argos)
    (st : Loop session) (q : queue) (inputs : list (bytes * Q))
    (st' : Loop session) (q' : queue) (trace : list (list event)) :
  run_frames args tr st q inputs = Some (st', q', trace) ->
  session_protocol false (concat trace) = true /\
  count is_new_recognizer (concat trace) = count is_final_result (concat trace) /\
  Forall (fun evs => count is_new_recognizer evs = count is_final_result evs)
         trace /\
  (finalizes (last trace []) -> rec st' = KaldiRecognizer).
Proof.
  intro R. destruct (run_protocol args tr R) as (P & C & _ & _).
  split; [exact P|]. split; [exact C|]. split.
  - clear P C. revert st q st' q' trace R.
    induction inputs as [|[f now] l IH]; intros st q st' q' trace R; simpl in R.
    + inversion R; constructor.
    + destruct (on_frame args tr st q f now) as [[[sa qa] evs]|] eqn:E;
        [|discriminate].
      destruct (run_frames args tr sa qa l) as [[[sb qb] t]|] eqn:R';
        [|discriminate].
      inversion R; subst; clear R.
      destruct (on_frame_inv args tr E) as (b & _ & Hstep).
      constructor; [apply (step_protocol args tr Hstep) | eapply IH; eassumption].
  - intro F. destruct inputs as [|x l] using rev_ind.
    + simpl in R. inversion R; subst. destruct F.
    + clear IHl.
      destruct (run_frames_snoc args tr R) as (s0 & q0 & t0 & evs & _ & Hx & ->).
      rewrite last_last in F.
      destruct (on_frame_inv args tr Hx) as (b & _ & Hstep).
      rewrite (step_finalizes_resets args tr Hstep F). reflexivity.
Qed.

(** C7. In every run the speech queue is what the [tts.say] calls of the
    trace make of it, in the order of the frames; a frame says at most one
    utterance; a final (priority 1) is said in the frame that closes its
    phrase, after [FinalResult] and as the last call before the session is
    replaced; a partial (priority 0) is said by a frame that does not close
    a phrase; and after a frame that closes a phrase the rest of the trace
    and the queue are those of a run from start-up over the later frames
    alone, so no partial of the closed phrase follows its final. *)
Theorem utterances_in_segment_order
    {session : Type} {vosk : Recognizer session} (args : Args) (tr : Argos)
    (q : queue) (inputs : list (bytes * Q))
    (st' : Loop session) (q' : queue) (trace : list (list event)) :
  run_frames args tr initial q inputs = Some (st', q', trace) ->
  q' = replay_says q (concat trace) /\
  Forall (fun evs =>
            (count is_say evs <= 1)%nat /\
            forall t l p, In (EvSay t l p) evs ->
              (p = 1%Z /\ exists a, evs = a ++ [EvSay t l 1; EvNewRecognizer] /\
                                    In EvFinalResult a)
              \/ (p = 0%Z /\ In EvPartialResult evs /\ ~ finalizes evs))
         trace /\
  (forall pre x post,
     inputs = pre ++ x :: post ->
     finalizes (nth (length pre) trace []) ->
     exists st1 q1 t1 st2,
       run_frames args tr initial q (pre ++ [x]) = Some (st1, q1, t1) /\
       run_frames args tr initial q1 post
       = Some (st2, q', skipn (S (length pre)) trace)).
Proof.
  intro R. destruct (run_protocol args tr R) as (_ & _ & Q & F).
  split; [exact Q|]. split; [exact F|].
  intros pre x post -> Fin. exact (run_restarts args tr R Fin).
Qed.

(** C3 (amended). For every queue and every job with a text (non-empty
    once stripped), [say] with priority 1 leaves exactly the new job on the
    queue, and [say] with any other priority appends the new job to the
    queue as it was; the text is queued stripped. *)
Theorem say_drains_when_urgent (q : queue) (text lang : str) :
  strip text <> [] ->
  say q text lang 1 = [(strip text, lang)] /\
  (forall priority, priority <> 1%Z ->
     say q text lang priority = q ++ [(strip text, lang)]).
Proof.
  intro H. unfold say. rewrite or_empty_id.
  apply truthy_true in H. rewrite H. simpl negb. cbv iota. split.
  - simpl. rewrite drain_queue_empty. reflexivity.
  - intros priority Hp. apply Z.eqb_neq in Hp. rewrite Hp. reflexivity.
Qed.

(** The queue [[A; B]] and the job C. *)
Lemma say_drains_when_urgent_witness :
  say [(lit "A", lit "es"); (lit "B", lit "es")] (lit "C") (lit "en") 1
  = [(strip (lit "C"), lit "en")] /\
  (forall priority, priority <> 1%Z ->
     say [(lit "A", lit "es"); (lit "B", lit "es")] (lit "C") (lit "en") priority
     = [(lit "A", lit "es"); (lit "B", lit "es")] ++ [(strip (lit "C"), lit "en")]).
Proof.
  apply (say_drains_when_urgent
           [(lit "A", lit "es"); (lit "B", lit "es")] (lit "C") (lit "en")).
  vm_compute. discriminate.
Defined.

(** C3 as stated fails for a job whose text is blank: [say] returns at
    lines 105-106, before the drain of line 108, so the jobs A and B stay
    queued and the urgent job is not put. *)
Lemma urgent_blank_job_drains_nothing :
  say [(lit "A", lit "es"); (lit "B", lit "es")] (lit "  ") (lit "en") 1
  = [(lit "A", lit "es"); (lit "B", lit "es")] /\
  say [(lit "A", lit "es"); (lit "B", lit "es")] (lit "  ") (lit "en") 1
  <> [(lit "  ", lit "en")] /\
  say [(lit "A", lit "es"); (lit "B", lit "es")] (lit "  ") (lit "en") 1
  <> [(strip (lit "  "), lit "en")].
Proof. repeat split; vm_compute; discriminate. Qed.

Example say_urgent_abc :
  say [(lit "A", lit "es"); (lit "B", lit "es")] (lit " C ") (lit "en") 1
  = [(lit "C", lit "en")].
Proof. reflexivity. Qed.

Example say_normal_abc :
  say [(lit "A", lit "es"); (lit "B", lit "es")] (lit " C ") (lit "en") 0
  = [(lit "A", lit "es"); (lit "B", lit "es"); (lit "C", lit "en")].
Proof. reflexivity. Qed.

(** C9. A text that is empty once stripped leaves the queue as it was,
    whatever the priority: nothing is put and nothing is drained. *)
Theorem say_blank_is_noop (q : queue) (text lang : str) (priority : Z) :
  strip text = [] -> say q text lang priority = q.
Proof.
  intro H. unfold say. rewrite or_empty_id, H. reflexivity.
Qed.

Lemma say_blank_is_noop_witness :
  say [(lit "A", lit "es"); (lit "B", lit "es")] (lit "  ") (lit "en") 1
  = [(lit "A", lit "es"); (lit "B", lit "es")].
Proof.
  apply (say_blank_is_noop
           [(lit "A", lit "es"); (lit "B", lit "es")] (lit "  ") (lit "en") 1).
  reflexivity.
Defined.

(** C5. For every text, when the language pair is not installed or a call
    into the engine raises, [translate_text] returns the text unchanged and
    prints exactly one line, a warning; when the engine translates, it
    returns the translation and prints nothing; one of the three is always
    the case, so the function returns on every input and no error reaches
    the caller. *)
Theorem translate_text_fails_soft (env : Argos) (src tgt text : str) :
  (pair_unavailable env src tgt \/ engine_raises env src tgt text ->
   exists w, translate_text env src tgt text = (text, [w]) /\
             is_warning w = true) /\
  (forall out, translates env src tgt text out ->
     translate_text env src tgt text = (out, [])) /\
  (pair_unavailable env src tgt \/ engine_raises env src tgt text \/
   exists out, translates env src tgt text out).
Proof.
  unfold translate_text, pair_unavailable, engine_raises, translates.
  rewrite or_empty_id.
  destruct (get_installed_languages env) as [langs|e].
  2:{ split; [|split].
      - intros _. eexists; split; reflexivity.
      - intros out (l & _ & _ & _ & H & _). discriminate.
      - right. left. left. eauto. }
  destruct (find_language langs src) as [fl|] eqn:Ef.
  2:{ split; [|split].
      - intros _. eexists; split; reflexivity.
      - intros out (l & f & t & x & H & Hf & _). inversion H; subst. congruence.
      - left. exists langs. auto. }
  destruct (find_language langs tgt) as [tl|] eqn:Et.
  2:{ split; [|split].
      - intros _. eexists; split; reflexivity.
      - intros out (l & f & t & x & H & _ & Ht & _). inversion H; subst. congruence.
      - left. exists langs. auto. }
  destruct (get_translation fl (code tl)) as [[t|]|e] eqn:Eg.
  - destruct (translate t text) as [out|e] eqn:Er.
    + split; [|split].
      * intros [(l & H & [F|[F|(f & t' & Hf & Ht & G)]])
               |[(e & H)|(l & f & t' & H & Hf & Ht & [(e & G)|(x & e & G & T)])]];
          try discriminate; inversion H; subst; congruence.
      * intros out' (l & f & t' & x & H & Hf & Ht & G & T).
        inversion H; subst. rewrite Ef in Hf. rewrite Et in Ht.
        inversion Hf; inversion Ht; subst. rewrite Eg in G. inversion G; subst.
        rewrite Er in T. inversion T; subst. reflexivity.
      * right. right. exists out, langs, fl, tl, t. auto.
    + split; [|split].
      * intros _. eexists; split; reflexivity.
      * intros out' (l & f & t' & x & H & Hf & Ht & G & T).
        inversion H; subst. rewrite Ef in Hf. rewrite Et in Ht.
        inversion Hf; inversion Ht; subst. rewrite Eg in G. inversion G; subst.
        rewrite Er in T. discriminate.
      * right. left. right. exists langs, fl, tl. repeat split; auto.
        right. exists t, e. auto.
  - split; [|split].
    + intros _. eexists; split; reflexivity.
    + intros out' (l & f & t' & x & H & Hf & Ht & G & T).
      inversion H; subst. rewrite Ef in Hf. rewrite Et in Ht.
      inversion Hf; inversion Ht; subst. rewrite Eg in G. discriminate.
    + left. exists langs. split; auto. right. right. exists fl, tl. auto.
  - split; [|split].
    + intros _. eexists; split; reflexivity.
    + intros out' (l & f & t' & x & H & Hf & Ht & G & T).
      inversion H; subst. rewrite Ef in Hf. rewrite Et in Ht.
      inversion Hf; inversion Ht; subst. rewrite Eg in G. discriminate.
    + right. left. right. exists langs, fl, tl. repeat split; auto.
      left. exists e. auto.
Qed.

(** No language installed: the text comes back with one warning. *)
Lemma translate_text_fails_soft_witness :
  exists w, translate_text no_languages (lit "es") (lit "en") (lit "hola")
            = (lit "hola", [w]) /\ is_warning w = true.
Proof.
  apply (proj1 (translate_text_fails_soft
                  no_languages (lit "es") (lit "en") (lit "hola"))).
  left. exists []. split; [reflexivity | left; reflexivity].
Defined.

Example translate_missing_pair :
  translate_text es_en (lit "en") (lit "es") (lit "hello")
  = (lit "hello", [WarnArgosError none_has_no_translate]).
Proof. reflexivity. Qed.

Example translate_engine_error :
  translate_text failing (lit "es") (lit "en") (lit "hola")
  = (lit "hola", [WarnArgosError (lit "boom")]).
Proof. reflexivity. Qed.

Example translate_installed :
  translate_text es_en (lit "es") (lit "en") (lit "hola")
  = (lit "en:hola", []).
Proof. reflexivity. Qed.



(** The answer on [just_above] does not hinge on the order of the sum: with
    the squares added from left to right the float32 energy is
    0.0089999977499, again below the threshold. *)
Example float32_energy_misses_threshold_left_to_right :
  frombuffer_int16 just_above = Some just_above_samples /\
  sum_squares just_above_samples = 41747083%Z /\
  let x := map (fun v => np.div32 (np.float32_of_int v)
                                  (np.float32_of_int 32768))
               just_above_samples in
  let squares := map (fun v => np.mul32 v v) x in
  let energy :=
    np.float64_of_float32
      (np.sqrt32 (np.mean_of (np.sum_rest np.zero squares)
                             (length squares))) in
  energy = SpecFloat.S754_finite false 5188145473650688 (-59) /\
  np.ge energy RMS_THRESH_float = false.
Proof. cbv zeta. repeat split; vm_compute; reflexivity. Qed.

(** The other way round: the root mean square of [just_below] is below
    [RMS_THRESH] (it is 0.0089999999874), the float32 energy is
    0.0090000005439, and line 84 answers true. *)
Example float32_energy_passes_threshold :
  length just_below = frame_bytes /\
  (exists e, rms_energy just_below = Some e /\ (e < RMS_THRESH)%R) /\
  rms_energy_float32 just_below
  = Some (SpecFloat.S754_finite false 5188147084263424 (-59)) /\
  is_speech_energy_float32 just_below = Some true.
Proof.
  split; [vm_compute; reflexivity|].
  split; [|split]; try (vm_compute; reflexivity).
  assert (S : is_speech_energy just_below = Some false).
  { rewrite is_speech_energy_exact. vm_compute. reflexivity. }
  unfold is_speech_energy in S.
  destruct (rms_energy just_below) as [e|]; [|discriminate].
  exists e. split; [reflexivity|].
  apply Rge_bool_false. congruence.
Qed.

(** Away from the threshold the two computations agree: the loud frame
    (every sample 16448, energy 0.50195) is speech and the quiet frame is
    silence for both. *)
Example float32_detector_on_examples :
  rms_energy_float32 loud
  = Some (SpecFloat.S754_finite false 4521191813414912 (-53)) /\
  is_speech_energy_float32 loud = Some true /\
  is_speech_energy loud = Some true /\
  rms_energy_float32 quiet = Some np.zero /\
  is_speech_energy_float32 quiet = Some false /\
  is_speech_energy quiet = Some false.
Proof.
  repeat split; try (vm_compute; reflexivity).
  - exact loud_is_speech.
  - exact quiet_is_silence.
Qed.



Example frames_of_two_and_a_half :
  map fst (frames_of_chunk (loud ++ quiet ++ firstn 480 loud) (fun _ => 1000))
  = [loud; quiet].
Proof. vm_compute. reflexivity. Qed.

Section Talker.

#[local] Existing Instance talker.


(** The scenario of the two candidates: a partial is emitted at that
    reading; a different candidate of 19 characters is withheld one second
    later, and emitted a quarter of a second after that, 1250 ms after the
    first. *)
Example partial_waits_for_interval :
  let st1 : Loop nat :=
    {| rec := 1%nat; last_voice_time := 1700000000; got_voice := true;
       partial_buf_text := lit "hola mundo";
       partial_last_emit := 1700000000 |} in
  let q1 : queue := [(lit "en:hola mundo", lit "en")] in
  on_frame (es_to_en true) es_en initial [] loud 1700000000
  = Some (st1, q1,
          [EvAccept loud; EvPartialResult; EvTranslate (lit "hola mundo");
           EvSay (lit "en:hola mundo") (lit "en") 0]) /\
  clock_reading 1700000001 /\
  clock_reading (6800000005 # 4) /\
  on_frame (es_to_en true) es_en st1 q1 loud 1700000001
  = Some ({| rec := 2%nat; last_voice_time := 1700000001; got_voice := true;
             partial_buf_text := lit "hola mundo";
             partial_last_emit := 1700000000 |},
          q1, [EvAccept loud]) /\
  on_frame (es_to_en true) es_en st1 q1 loud (6800000005 # 4)
  = Some ({| rec := 2%nat; last_voice_time := 6800000005 # 4;
             got_voice := true;
             partial_buf_text := lit "hola mundo otra vez";
             partial_last_emit := 6800000005 # 4 |},
          q1 ++ [(lit "en:hola mundo otra vez", lit "en")],
          [EvAccept loud; EvPartialResult;
           EvTranslate (lit "hola mundo otra vez");
           EvSay (lit "en:hola mundo otra vez") (lit "en") 0]).
Proof.
  cbv zeta.
  rewrite !(on_frame_classified _ _ _ _ _ loud_is_speech).
  split; [vm_compute; reflexivity|].
  split.
  { split; [apply Qle_bool_iff; reflexivity|].
    exists 7130316804194304%Z. reflexivity. }
  split.
  { split; [apply Qle_bool_iff; reflexivity|].
    exists 7130316805242880%Z. reflexivity. }
  split; vm_compute; reflexivity.
Qed.

Lemma dialogue_classes :
  Forall2 (fun x c => is_speech_energy (fst x) = Some c)
          dialogue [true; false; true].
Proof.
  unfold dialogue.
  repeat constructor; simpl; auto using loud_is_speech, quiet_is_silence.
Qed.

Lemma dialogue_runs :
  exists r, run_frames (es_to_en true) es_en initial [] dialogue = Some r.
Proof. rewrite (run_frames_classified _ _ _ _ _ _ dialogue_classes). eauto. Qed.

(** C6 as stated fails across a closed phrase: the words are said, the
    phrase is closed after a pause, the same words are said again, and the
    same partial is emitted twice in a row. *)
Lemma same_partial_twice_across_finalize :
  option_map (fun r => (map (count is_final_result) (snd r),
                        partials_emitted (snd r)))
    (run_frames (es_to_en true) es_en initial [] dialogue)
  = Some ([0%nat; 1%nat; 0%nat], [lit "hola mundo"; lit "hola mundo"]).
Proof.
  rewrite (run_frames_classified _ _ _ _ _ _ dialogue_classes).
  vm_compute. reflexivity.
Qed.

Lemma partials_differ_within_segment_witness :
  exists st' q' trace,
    run_frames (es_to_en true) es_en initial [] dialogue = Some (st', q', trace) /\
    (forall evs p, In evs trace -> emits_partial evs p ->
       (MIN_PARTIAL_CHARS <= length p)%nat) /\
    (forall t1 e1 mid e2 t2 p1 p2,
       trace = t1 ++ e1 :: mid ++ e2 :: t2 ->
       emits_partial e1 p1 -> emits_partial e2 p2 ->
       Forall (fun e => ~ finalizes e /\ forall p, ~ emits_partial e p) mid ->
       p1 <> p2).
Proof.
  destruct dialogue_runs as [[[st' q'] trace] R].
  exists st', q', trace. split; [exact R|].
  exact (partials_differ_within_segment
           (es_to_en true) es_en [] dialogue st' q' trace R).
Defined.

Lemma recognizer_replaced_after_finalize_witness :
  exists st' q' trace,
    run_frames (es_to_en true) es_en initial [] dialogue = Some (st', q', trace) /\
    session_protocol false (concat trace) = true /\
    count is_new_recognizer (concat trace)
    = count is_final_result (concat trace) /\
    Forall (fun evs => count is_new_recognizer evs = count is_final_result evs)
           trace /\
    (finalizes (last trace []) -> rec st' = KaldiRecognizer).
Proof.
  destruct dialogue_runs as [[[st' q'] trace] R].
  exists st', q', trace. split; [exact R|].
  exact (recognizer_replaced_after_finalize
           (es_to_en true) es_en initial [] dialogue st' q' trace R).
Defined.

Lemma utterances_in_segment_order_witness :
  exists st' q' trace,
    run_frames (es_to_en true) es_en initial [] dialogue = Some (st', q', trace) /\
    q' = replay_says [] (concat trace) /\
    Forall (fun evs =>
              (count is_say evs <= 1)%nat /\
              forall t l p, In (EvSay t l p) evs ->
                (p = 1%Z /\ exists a, evs = a ++ [EvSay t l 1; EvNewRecognizer] /\
                                      In EvFinalResult a)
                \/ (p = 0%Z /\ In EvPartialResult evs /\ ~ finalizes evs))
           trace /\
    (forall pre x post,
       dialogue = pre ++ x :: post ->
       finalizes (nth (length pre) trace []) ->
       exists st1 q1 t1 st2,
         run_frames (es_to_en true) es_en initial [] (pre ++ [x])
         = Some (st1, q1, t1) /\
         run_frames (es_to_en true) es_en initial q1 post
         = Some (st2, q', skipn (S (length pre)) trace)).
Proof.
  destruct dialogue_runs as [[[st' q'] trace] R].
  exists st', q', trace. split; [exact R|].
  exact (utterances_in_segment_order
           (es_to_en true) es_en [] dialogue st' q' trace R).
Defined.

(** The dialogue evaluated: the calls of its three frames and the queue
    (with no worker taking jobs): the final drained the first partial, the
    partial of the second phrase waits behind the final. *)
Example dialogue_says :
  option_map (fun r => (map (filter is_say) (snd r), snd (fst r)))
    (run_frames (es_to_en true) es_en initial [] dialogue)
  = Some ([[EvSay (lit "en:hola mundo") (lit "en") 0];
           [EvSay (lit "en:hola mundo") (lit "en") 1];
           [EvSay (lit "en:hola mundo") (lit "en") 0]],
          [(lit "en:hola mundo", lit "en"); (lit "en:hola mundo", lit "en")]).
Proof.
  rewrite (run_frames_classified _ _ _ _ _ _ dialogue_classes).
  vm_compute. reflexivity.
Qed.

End Talker.

(* ================================================================== *)
(** * Further properties *)
(* ================================================================== *)

(** ** Energy detector: errors *)

Lemma rms_energy_none (frame : bytes) :
  rms_energy frame = None <-> frombuffer_int16 frame = None.
Proof.
  unfold rms_energy. destruct (frombuffer_int16 frame) as [l|].
  - cbv zeta. destruct (length (normalize l) =? 0)%nat; split; discriminate.
  - tauto.
Qed.

(** X1. The energy functions raise (the [ValueError] of [np.frombuffer])
    exactly on buffers with an odd number of bytes, and then the loop body
    raises too, before it reads the clock or feeds the recogniser. *)
Theorem energy_raises_on_odd_length (frame : bytes) :
  (rms_energy frame = None <-> Nat.even (length frame) = false) /\
  (is_speech_energy frame = None <-> Nat.even (length frame) = false) /\
  (forall (session : Type) (vosk : Recognizer session) (args : Args)
          (tr : Argos) (st : Loop session) (q : queue) (now : Q),
     on_frame args tr st q frame now = None
     <-> Nat.even (length frame) = false).
Proof.
  assert (S : is_speech_energy frame = None <-> Nat.even (length frame) = false).
  { rewrite <- frombuffer_none_iff, <- rms_energy_none.
    unfold is_speech_energy. destruct (rms_energy frame); split; congruence. }
  split; [|split].
  - rewrite rms_energy_none. apply frombuffer_none_iff.
  - exact S.
  - intros. rewrite <- S. unfold on_frame.
    destruct (is_speech_energy frame); split; congruence.
Qed.

(** ** Stripping twice *)

Lemma lstrip_no_leading (s : str) : no_leading_space (lstrip s).
Proof.
  induction s as [|c s IH]; simpl; [exact I|].
  destruct (isspace c) eqn:E; [exact IH | exact E].
Qed.

Lemma lstrip_fixed (s : str) : no_leading_space s -> lstrip s = s.
Proof. destruct s as [|c s]; simpl; [reflexivity|]. intros ->. reflexivity. Qed.

Lemma lstrip_app_nonspace (l : str) (c : char) (r : str) :
  isspace c = false -> lstrip (l ++ c :: r) = lstrip l ++ c :: r.
Proof.
  intro H. induction l as [|x l IH]; simpl.
  - rewrite H. reflexivity.
  - destruct (isspace x); [exact IH | reflexivity].
Qed.

Lemma rstrip_keeps_no_leading (s : str) :
  no_leading_space s -> no_leading_space (rstrip s).
Proof.
  destruct s as [|c s]; [intros _; exact I|].
  simpl. intro H. unfold rstrip. simpl rev.
  rewrite (lstrip_app_nonspace (rev s) c [] H), rev_app_distr. simpl. exact H.
Qed.

Lemma strip_idempotent (s : str) : strip (strip s) = strip s.
Proof.
  unfold strip.
  rewrite (lstrip_fixed (rstrip (lstrip s)))
    by (apply rstrip_keeps_no_leading, lstrip_no_leading).
  unfold rstrip. rewrite rev_involutive.
  rewrite (lstrip_fixed (lstrip (rev (lstrip s)))) by apply lstrip_no_leading.
  reflexivity.
Qed.

(** ** The speech queue holds speakable jobs *)

Lemma say_speakable (q : queue) (text lang : str) (priority : Z) :
  Forall speakable q -> Forall speakable (say q text lang priority).
Proof.
  intro H. unfold say. rewrite or_empty_id.
  destruct (truthy (strip text)) eqn:T; simpl negb; cbv iota; [|exact H].
  apply Forall_app. split.
  - destruct (priority =? 1)%Z; [|exact H].
    rewrite drain_queue_empty. constructor.
  - constructor; [|constructor]. split; simpl.
    + apply truthy_true, T.
    + apply strip_idempotent.
Qed.

Lemma replay_says_speakable (evs : list event) (q : queue) :
  Forall speakable q -> Forall speakable (replay_says q evs).
Proof.
  revert q. induction evs as [|e evs IH]; intros q H; simpl; [exact H|].
  destruct e; try (apply IH; exact H).
  apply IH, say_speakable, H.
Qed.

Lemma urgent_say_leaves_job_alone (q : queue) (text lang : str) :
  strip text <> [] -> say q text lang 1 = [(strip text, lang)].
Proof.
  intro H. unfold say. rewrite or_empty_id.
  apply truthy_true in H. rewrite H. simpl.
  rewrite drain_queue_empty. reflexivity.
Qed.

Lemma say_normal_appends (q : queue) (text lang : str) :
  say q text lang 0 = q \/ exists j, say q text lang 0 = q ++ [j].
Proof.
  unfold say. destruct (truthy (strip (or_empty text))); simpl; eauto.
Qed.

Lemma app_same_length {A : Type} (a b a' b' : list A) :
  a ++ b = a' ++ b' -> length a = length a' -> a = a' /\ b = b'.
Proof.
  revert a'. induction a as [|x a IH]; intros [|y a'] E L; simpl in *;
    try discriminate; [auto|].
  inversion E; subst. destruct (IH a' H1) as [-> ->]; [lia | auto].
Qed.

Section MoreLoop.

Context {session : Type} {vosk : Recognizer session}.
Variable args : Args.
Variable tr : Argos.

Lemma step_feeds_first {st q b frame now st' q' evs} :
  segment_step args tr st q b frame now = (st', q', evs) ->
  hd_error evs = Some (EvAccept frame) /\ count is_accept evs = 1%nat.
Proof. intro H. step_cases H; split; try reflexivity; count_events. Qed.

Lemma step_without_partials {st q b frame now st' q' evs} :
  partials args = false ->
  segment_step args tr st q b frame now = (st', q', evs) ->
  ~ In EvPartialResult evs /\
  (forall t l p, In (EvSay t l p) evs -> p = 1%Z) /\
  (b = true -> q' = q).
Proof.
  intros P H. unfold segment_step in H. rewrite P in H. cbn [andb] in H.
  step_cases H; (split; [intro F; in_events|]); (split; [|try reflexivity; discriminate]);
    intros say_text say_lang say_prio Hin; in_events;
    inversion Hin; reflexivity.
Qed.

Lemma step_queue_grows {st q b frame now st' q' evs} :
  segment_step args tr st q b frame now = (st', q', evs) ->
  ~ finalizes evs ->
  q' = q \/ exists j, q' = q ++ [j].
Proof.
  intros H NF. unfold finalizes in NF.
  step_cases H; auto using say_normal_appends; exfalso; apply NF; simpl; auto.
Qed.

Lemma step_emission_time {st q b frame now st' q' evs p} :
  segment_step args tr st q b frame now = (st', q', evs) ->
  emits_partial evs p ->
  interval_elapsed st now /\ partial_last_emit st' = now.
Proof.
  intros H [HP HT]. destruct b.
  - destruct (emission_dec args st frame now) as [(P & I & W)|N].
    + rewrite (step_partial_emitted args tr st q frame now P I W) in H.
      inversion H; subst. auto.
    + destruct (step_partial_withheld args tr _ _ _ _ _ _ _ H N)
        as (_ & _ & _ & [-> | ->]); in_events.
  - exfalso. clear HT. step_cases H; in_events.
Qed.

Lemma step_keeps_emission_time {st q b frame now st' q' evs} :
  segment_step args tr st q b frame now = (st', q', evs) ->
  ~ finalizes evs -> (forall p, ~ emits_partial evs p) ->
  partial_last_emit st' = partial_last_emit st.
Proof.
  intros H NF NP. destruct b.
  - destruct (emission_dec args st frame now) as [(P & I & W)|N].
    + rewrite (step_partial_emitted args tr st q frame now P I W) in H.
      inversion H; subst; clear H.
      exfalso. apply (NP (candidate_partial st frame)). split; simpl; auto.
    + apply (step_partial_withheld args tr _ _ _ _ _ _ _ H N).
  - step_cases H; simpl; auto; exfalso; apply NF; unfold finalizes; simpl; auto.
Qed.

Lemma run_keeps_emission_time {st q inputs st' q' trace} :
  run_frames args tr st q inputs = Some (st', q', trace) ->
  Forall (fun e => ~ finalizes e /\ forall p, ~ emits_partial e p) trace ->
  partial_last_emit st' = partial_last_emit st.
Proof.
  revert st q st' q' trace.
  induction inputs as [|[f now] l IH]; intros st q st' q' trace H F; simpl in H.
  - inversion H; reflexivity.
  - destruct (on_frame args tr st q f now) as [[[sa qa] evs]|] eqn:E;
      [|discriminate].
    destruct (run_frames args tr sa qa l) as [[[sb qb] t]|] eqn:R;
      [|discriminate].
    inversion H; subst; clear H. inversion F as [|? ? [NF NP] F']; subst.
    rewrite (IH _ _ _ _ _ R F').
    destruct (on_frame_inv args tr E) as (b & _ & Hstep).
    exact (step_keeps_emission_time Hstep NF NP).
Qed.

End MoreLoop.

(** ** The loop: further properties *)

(** X3. Whatever the loop does, the speech queue only ever gains jobs whose
    text is not empty and has no whitespace around it: if the queue held
    such jobs before a run, it holds such jobs after it. *)
Theorem queue_holds_speakable_jobs
    {session : Type} {vosk : Recognizer session} (args : Args) (tr : Argos)
    (st : Loop session) (q : queue) (inputs : list (bytes * Q))
    (st' : Loop session) (q' : queue) (trace : list (list event)) :
  run_frames args tr st q inputs = Some (st', q', trace) ->
  Forall speakable q -> Forall speakable q'.
Proof.
  intros R H. destruct (run_protocol args tr R) as (_ & _ & -> & _).
  apply replay_says_speakable, H.
Qed.

(** X4. Silence frames that come before any voice, or within [PAUSE_MS] of
    the last voice, only feed the recogniser: the other locals and the
    speech queue stay as they are and no other call is made. *)
Theorem idle_frames_change_nothing
    {session : Type} {vosk : Recognizer session} (args : Args) (tr : Argos)
    (st : Loop session) (q : queue) (gap : list (bytes * Q)) :
  Forall silence gap ->
  got_voice st = false \/
  Forall (fun m => elapsed_ms (snd m) (last_voice_time st) < PAUSE_MS) gap ->
  run_frames args tr st q gap
  = Some ({| rec := fold_left AcceptWaveform (map fst gap) (rec st);
             last_voice_time := last_voice_time st;
             got_voice := got_voice st;
             partial_buf_text := partial_buf_text st;
             partial_last_emit := partial_last_emit st |},
          q, map (fun x => [EvAccept (fst x)]) gap).
Proof.
  intro S. revert st. induction S as [|[f now] gap Sx _ IH]; intros st C.
  - destruct st; reflexivity.
  - simpl. unfold silence in Sx. simpl in Sx.
    rewrite (on_frame_classified args tr st q now Sx).
    destruct (segment_step args tr st q false f now) as [[s1 q1] evs] eqn:H.
    assert (C1 : got_voice st = false
                 \/ elapsed_ms now (last_voice_time st) < PAUSE_MS).
    { destruct C as [C|C]; [left; exact C | right].
      inversion C; subst. assumption. }
    destruct (step_silence_keep args tr H C1) as (G & L & B & E & R & -> & ->).
    assert (C2 : got_voice s1 = false \/
                 Forall (fun m => elapsed_ms (snd m) (last_voice_time s1)
                                  < PAUSE_MS) gap).
    { destruct C as [C|C]; [left; congruence | right].
      inversion C; subst. rewrite L. assumption. }
    rewrite (IH s1 C2). rewrite G, L, B, E, R. reflexivity.
Qed.

(** X5. Every frame of a run is fed to the recogniser exactly once, and
    that is the first call made for the frame. *)
Theorem every_frame_fed_once_first
    {session : Type} {vosk : Recognizer session} (args : Args) (tr : Argos)
    (st : Loop session) (q : queue) (inputs : list (bytes * Q))
    (st' : Loop session) (q' : queue) (trace : list (list event)) :
  run_frames args tr st q inputs = Some (st', q', trace) ->
  map (@hd_error event) trace = map (fun x => Some (EvAccept (fst x))) inputs /\
  Forall (fun evs => count is_accept evs = 1%nat) trace.
Proof.
  revert st q st' q' trace.
  induction inputs as [|[f now] l IH]; intros st q st' q' trace H; simpl in H.
  - inversion H; subst. split; [reflexivity | constructor].
  - destruct (on_frame args tr st q f now) as [[[sa qa] evs]|] eqn:E;
      [|discriminate].
    destruct (run_frames args tr sa qa l) as [[[sb qb] t]|] eqn:R;
      [|discriminate].
    inversion H; subst; clear H.
    destruct (on_frame_inv args tr E) as (b & _ & Hstep).
    destruct (step_feeds_first args tr Hstep) as (Hd & Cn).
    destruct (IH _ _ _ _ _ R) as (M & F).
    split; [simpl; rewrite Hd, M; reflexivity | constructor; assumption].
Qed.

(** X6. Without [--partials] the loop never reads [PartialResult], says
    nothing but finals (priority 1), and a speech frame leaves the queue
    untouched. *)
Theorem no_partials_when_disabled
    {session : Type} {vosk : Recognizer session} (args : Args) (tr : Argos)
    (st : Loop session) (q : queue) (inputs : list (bytes * Q))
    (st' : Loop session) (q' : queue) (trace : list (list event)) :
  partials args = false ->
  run_frames args tr st q inputs = Some (st', q', trace) ->
  Forall (fun evs => ~ In EvPartialResult evs /\
                     forall t l p, In (EvSay t l p) evs -> p = 1%Z) trace /\
  partials_emitted trace = [].
Proof.
  intro P. revert st q st' q' trace.
  induction inputs as [|[f now] l IH]; intros st q st' q' trace H; simpl in H.
  - inversion H; subst. split; [constructor | reflexivity].
  - destruct (on_frame args tr st q f now) as [[[sa qa] evs]|] eqn:E;
      [|discriminate].
    destruct (run_frames args tr sa qa l) as [[[sb qb] t]|] eqn:R;
      [|discriminate].
    inversion H; subst; clear H.
    destruct (on_frame_inv args tr E) as (b & _ & Hstep).
    destruct (step_without_partials args tr P Hstep) as (NP & Sy & _).
    destruct (IH _ _ _ _ _ R) as (F & Em).
    split; [constructor; auto|].
    unfold partials_emitted in *. simpl. rewrite Em, app_nil_r.
    unfold partials_of_frame.
    destruct (existsb _ evs) eqn:X; [|reflexivity].
    exfalso. apply existsb_exists in X. destruct X as (e & He & Ee).
    destruct e; try discriminate. exact (NP He).
Qed.

(** X7. A frame that closes a phrase leaves the locals as at start-up (but
    for [last_voice_time]).  If the final text is empty it says nothing and
    leaves the queue as it was; otherwise the final is translated and said
    with priority 1, and when the translation has something in it the
    queue then holds that job alone. *)
Theorem finalize_speaks_final_alone
    {session : Type} {vosk : Recognizer session} (args : Args) (tr : Argos)
    (st : Loop session) (q : queue) (frame : bytes) (now : Q) :
  is_speech_energy frame = Some false ->
  got_voice st = true ->
  PAUSE_MS <= elapsed_ms now (last_voice_time st) ->
  exists q' evs,
    on_frame args tr st q frame now
    = Some (set_voice_time (last_voice_time st) initial, q', evs) /\
    let final :=
      strip (opt_or_empty (fst (FinalResult (AcceptWaveform (rec st) frame)))) in
    let out := fst (translate_text tr (src args) (tgt args) final) in
    (final = [] ->
     q' = q /\ evs = [EvAccept frame; EvFinalResult; EvNewRecognizer]) /\
    (final <> [] ->
     In (EvTranslate final) evs /\ In (EvSay out (tgt args) 1) evs /\
     q' = say q out (tgt args) 1 /\
     (strip out <> [] -> q' = [(strip out, tgt args)]) /\
     (strip out = [] -> q' = q)).
Proof.
  intros S G P. rewrite (on_frame_classified args tr st q now S).
  apply Qge_bool_true in P. unfold elapsed_ms in P.
  unfold segment_step. rewrite G, P. cbn [andb].
  destruct (FinalResult (AcceptWaveform (rec st) frame)) as [res r'].
  cbn [fst]. destruct (truthy (strip (opt_or_empty res))) eqn:T.
  - destruct (translate_text tr (src args) (tgt args) (strip (opt_or_empty res)))
      as [out printed] eqn:Tr.
    eexists _, _. split; [reflexivity|]. cbv zeta. cbn [fst]. split.
    + intro E. rewrite E in T. discriminate.
    + intros _. split; [simpl; auto|]. split.
      * simpl. do 4 right. rewrite <- app_assoc.
        apply in_or_app. right. simpl. auto.
      * split; [reflexivity|]. split.
        -- intro N. apply (urgent_say_leaves_job_alone q out (tgt args) N).
        -- intro B. unfold say. rewrite or_empty_id, B. reflexivity.
  - eexists _, _. split; [reflexivity|]. cbv zeta. split.
    + intros _. split; reflexivity.
    + intro N. apply truthy_false in T. contradiction.
Qed.

(** X8. Queued jobs are discarded only when a phrase is closed: over a run
    in which no frame closes a phrase the queue keeps every job it held, in
    order, and gains at most one job per frame. *)
Theorem queue_kept_until_finalize
    {session : Type} {vosk : Recognizer session} (args : Args) (tr : Argos)
    (st : Loop session) (q : queue) (inputs : list (bytes * Q))
    (st' : Loop session) (q' : queue) (trace : list (list event)) :
  run_frames args tr st q inputs = Some (st', q', trace) ->
  Forall (fun evs => ~ finalizes evs) trace ->
  exists added, q' = q ++ added /\ (length added <= length inputs)%nat.
Proof.
  revert st q st' q' trace.
  induction inputs as [|[f now] l IH]; intros st q st' q' trace H F; simpl in H.
  - inversion H; subst. exists []. rewrite app_nil_r. auto.
  - destruct (on_frame args tr st q f now) as [[[sa qa] evs]|] eqn:E;
      [|discriminate].
    destruct (run_frames args tr sa qa l) as [[[sb qb] t]|] eqn:R;
      [|discriminate].
    inversion H; subst; clear H. inversion F as [|? ? NF F']; subst.
    destruct (on_frame_inv args tr E) as (b & _ & Hstep).
    destruct (IH _ _ _ _ _ R F') as (added & -> & L).
    destruct (step_queue_grows args tr Hstep NF) as [-> | (j & ->)].
    + exists added. simpl. split; [reflexivity | lia].
    + exists (j :: added). rewrite <- app_assoc. simpl. split; [reflexivity | lia].
Qed.

(** X9. Two partials emitted one after the other with no phrase closed in
    between are more than [PARTIAL_EVERY] milliseconds apart on the clock:
    the second frame's reading exceeds the first frame's by more than that. *)
Theorem partials_spaced_by_interval
    {session : Type} {vosk : Recognizer session} (args : Args) (tr : Argos)
    (st : Loop session) (q : queue)
    (i1 : list (bytes * Q)) (x1 : bytes * Q) (imid : list (bytes * Q))
    (x2 : bytes * Q) (i2 : list (bytes * Q))
    (st' : Loop session) (q' : queue)
    (t1 : list (list event)) (e1 : list event) (mid : list (list event))
    (e2 : list event) (t2 : list (list event)) (p1 p2 : str) :
  run_frames args tr st q (i1 ++ x1 :: imid ++ x2 :: i2)
  = Some (st', q', t1 ++ e1 :: mid ++ e2 :: t2) ->
  length t1 = length i1 -> length mid = length imid ->
  emits_partial e1 p1 -> emits_partial e2 p2 ->
  Forall (fun e => ~ finalizes e /\ forall p, ~ emits_partial e p) mid ->
  PARTIAL_EVERY < elapsed_ms (snd x2) (snd x1).
Proof.
  intros R L1 Lm H1 H2 Hmid.
  destruct (run_frames_split args tr t1 (e1 :: mid ++ e2 :: t2) R)
    as (j1 & j2 & s1 & q1 & Ej & R1 & R2).
  pose proof (run_frames_length args tr R1) as Lj.
  destruct (app_same_length _ _ _ _ Ej) as [<- <-]; [congruence|].
  simpl in R2. destruct x1 as [f1 now1].
  destruct (on_frame args tr s1 q1 f1 now1) as [[[sa qa] ea]|] eqn:E;
    [|discriminate].
  destruct (run_frames args tr sa qa (imid ++ x2 :: i2)) as [[[sb qb] tb]|] eqn:R3;
    [|discriminate].
  inversion R2; subst; clear R2.
  destruct (on_frame_inv args tr E) as (b & _ & Hstep).
  destruct (step_emission_time args tr Hstep H1) as (_ & T1).
  destruct (run_frames_split args tr mid (e2 :: t2) R3)
    as (k1 & k2 & s2 & q2 & Ek & Rmid & R4).
  pose proof (run_frames_length args tr Rmid) as Lk.
  destruct (app_same_length _ _ _ _ Ek) as [<- <-]; [congruence|].
  pose proof (run_keeps_emission_time args tr Rmid Hmid) as Keep.
  simpl in R4. destruct x2 as [f2 now2].
  destruct (on_frame args tr s2 q2 f2 now2) as [[[sc qc] ec]|] eqn:E2;
    [|discriminate].
  destruct (run_frames args tr sc qc i2) as [[[sd qd] td]|]; [|discriminate].
  inversion R4; subst; clear R4.
  destruct (on_frame_inv args tr E2) as (b2 & _ & Hstep2).
  destruct (step_emission_time args tr Hstep2 H2) as (I & _).
  unfold interval_elapsed in I. rewrite Keep in I. simpl snd. exact I.
Qed.

(** ** Chunks and frames *)

Lemma frame_bytes_pos : (0 < frame_bytes)%nat.
Proof. apply Nat.ltb_lt. vm_compute. reflexivity. Qed.

Lemma firstn_plus {A : Type} (a b : nat) (l : list A) :
  firstn (a + b) l = firstn a l ++ firstn b (skipn a l).
Proof.
  revert l. induction a as [|a IH]; intro l; simpl; [reflexivity|].
  destruct l as [|x l]; simpl.
  - rewrite firstn_nil. reflexivity.
  - rewrite IH. reflexivity.
Qed.

Lemma slice_full (chunk : bytes) (k : nat) :
  ((k + 1) * frame_bytes <= length chunk)%nat ->
  length (slice chunk (k * frame_bytes)) = frame_bytes.
Proof.
  intro H. unfold slice. rewrite firstn_length_le; [reflexivity|].
  rewrite length_skipn. lia.
Qed.

Lemma slice_short (chunk : bytes) (k : nat) :
  (length chunk < (k + 1) * frame_bytes)%nat ->
  (length (slice chunk (k * frame_bytes)) < frame_bytes)%nat.
Proof.
  intro H. unfold slice. rewrite length_firstn, length_skipn. lia.
Qed.

Lemma div_bounds (n fb : nat) :
  (0 < fb)%nat -> (n / fb * fb <= n /\ n < (n / fb + 1) * fb)%nat.
Proof.
  intro Pos.
  pose proof (Nat.div_mod n fb ltac:(lia)) as D.
  pose proof (Nat.mod_upper_bound n fb ltac:(lia)) as U.
  rewrite Nat.mul_add_distr_r, Nat.mul_1_l, (Nat.mul_comm (n / fb) fb). lia.
Qed.

Lemma ceil_div_cases (n fb : nat) :
  (0 < fb)%nat ->
  ((n + fb - 1) / fb = n / fb \/ (n + fb - 1) / fb = n / fb + 1)%nat.
Proof.
  intro Pos.
  pose proof (Nat.div_mod n fb ltac:(lia)) as D.
  pose proof (Nat.mod_upper_bound n fb ltac:(lia)) as U.
  destruct (Nat.eq_dec (n mod fb) 0) as [Z0|NZ].
  - left. symmetry. apply Nat.div_unique with (r := (fb - 1)%nat); lia.
  - right. symmetry. apply Nat.div_unique with (r := (n mod fb - 1)%nat);
      [lia|]. rewrite Nat.mul_add_distr_l, Nat.mul_1_r. lia.
Qed.

Lemma whole_frame_fits (m n fb : nat) :
  (0 < fb)%nat -> (S m <= n / fb)%nat -> ((m + 1) * fb <= n)%nat.
Proof.
  intros Pos H. apply Nat.le_trans with (n / fb * fb)%nat.
  - apply Nat.mul_le_mono_r. lia.
  - apply div_bounds, Pos.
Qed.

(** The offsets the [for] loop keeps are those of the whole frames. *)
Lemma full_offsets (chunk : bytes) :
  filter (fun i => negb (length (slice chunk i) <? frame_bytes)%nat)
         (py_range (length chunk) frame_bytes)
  = map (fun k => k * frame_bytes)%nat (seq 0 (length chunk / frame_bytes)).
Proof.
  pose proof frame_bytes_pos as Pos.
  unfold py_range.
  assert (Keep : forall m, (m <= length chunk / frame_bytes)%nat ->
            filter (fun i => negb (length (slice chunk i) <? frame_bytes)%nat)
                   (map (fun k => k * frame_bytes)%nat (seq 0 m))
            = map (fun k => k * frame_bytes)%nat (seq 0 m)).
  { induction m as [|m IH]; intro Hm; [reflexivity|].
    rewrite seq_S, map_app, filter_app, IH by lia. cbn [seq map filter Nat.add].
    rewrite (slice_full chunk m (whole_frame_fits m _ _ Pos Hm)).
    rewrite Nat.ltb_irrefl. reflexivity. }
  destruct (ceil_div_cases (length chunk) frame_bytes Pos) as [-> | ->].
  - apply Keep. lia.
  - rewrite Nat.add_1_r, seq_S, map_app, filter_app, Keep by lia.
    cbn [seq map filter Nat.add].
    pose proof (slice_short chunk (length chunk / frame_bytes)
                  (proj2 (div_bounds (length chunk) frame_bytes Pos))) as F.
    apply Nat.ltb_lt in F. rewrite F. apply app_nil_r.
Qed.

Lemma concat_slices (chunk : bytes) (m : nat) :
  concat (map (fun k => slice chunk (k * frame_bytes)) (seq 0 m))
  = firstn (m * frame_bytes) chunk.
Proof.
  induction m as [|m IH]; [reflexivity|].
  rewrite seq_S, map_app, concat_app, IH. cbn [map concat Nat.add].
  rewrite app_nil_r. unfold slice.
  replace (S m * frame_bytes)%nat with (m * frame_bytes + frame_bytes)%nat by lia.
  symmetry. apply firstn_plus.
Qed.

(** X10. The [for] loop cuts a chunk into [len(chunk) // frame_bytes]
    frames which, put end to end, are the chunk without its last
    [len(chunk) % frame_bytes] bytes: no byte is repeated or reordered and
    only the trailing remainder is dropped.  A chunk shorter than a frame
    gives no frame at all. *)
Theorem chunk_cut_into_whole_frames (chunk : bytes) (stamp : nat -> Q) :
  length (frames_of_chunk chunk stamp) = (length chunk / frame_bytes)%nat /\
  concat (map fst (frames_of_chunk chunk stamp))
  = firstn (length chunk - length chunk mod frame_bytes) chunk /\
  ((length chunk < frame_bytes)%nat -> frames_of_chunk chunk stamp = []).
Proof.
  pose proof frame_bytes_pos as Pos.
  unfold frames_of_chunk. rewrite full_offsets. split; [|split].
  - rewrite !length_map, length_seq. reflexivity.
  - rewrite !map_map. cbn [fst].
    rewrite concat_slices. f_equal.
    pose proof (Nat.div_mod (length chunk) frame_bytes ltac:(lia)). lia.
  - intro H. rewrite Nat.div_small by exact H. reflexivity.
Qed.

(** X11. Chunk boundaries do not matter beyond the cutting: the loop over
    a sequence of chunks is the loop body run over the frames of the first
    chunk, then those of the second, and so on. *)
Theorem main_loop_is_run_over_frames
    {session : Type} {vosk : Recognizer session} (args : Args) (tr : Argos)
    (st : Loop session) (q : queue) (chunks : list (bytes * (nat -> Q))) :
  main_loop args tr st q chunks
  = run_frames args tr st q
      (flat_map (fun c => frames_of_chunk (fst c) (snd c)) chunks).
Proof.
  revert st q. induction chunks as [|[chunk stamp] l IH]; intros st q.
  - reflexivity.
  - simpl. rewrite run_frames_app, process_chunk_frames.
    destruct (run_frames args tr st q (frames_of_chunk chunk stamp))
      as [[[s1 q1] t1]|]; [|reflexivity].
    rewrite IH. reflexivity.
Qed.

(** ** Start-up check and translation *)

(** X12. When the start-up check [ensure_language_pair] answers false,
    every later [translate_text] for the pair returns its text unchanged
    and prints exactly one warning. *)
Theorem ensure_false_means_passthrough (env : Argos) (src tgt : str) :
  ensure_language_pair env src tgt = false ->
  forall text, exists w,
    translate_text env src tgt text = (text, [w]) /\ is_warning w = true.
Proof.
  unfold ensure_language_pair, translate_text. intros H text.
  rewrite or_empty_id.
  destruct (get_installed_languages env) as [langs|e];
    [|eexists; split; reflexivity].
  destruct (find_language langs src) as [f|];
    [|eexists; split; reflexivity].
  destruct (find_language langs tgt) as [t|];
    [|eexists; split; reflexivity].
  destruct (get_translation f (code t)) as [r|e];
    [discriminate | eexists; split; reflexivity].
Qed.

Lemma ensure_false_means_passthrough_witness :
  exists w,
    translate_text no_languages (lit "es") (lit "en") (lit "hola")
    = (lit "hola", [w]) /\
    is_warning w = true.
Proof.
  apply (ensure_false_means_passthrough no_languages (lit "es") (lit "en")
           eq_refl (lit "hola")).
Defined.

(** X13. The start-up check only looks for the two languages: when both
    are installed but there is no translation from one to the other
    ([get_translation] gives [None]), the check still answers true, and
    every [translate_text] for the pair returns its text unchanged with one
    error line. *)
Theorem ensure_true_without_translation
    (env : Argos) (src tgt : str)
    (langs : list Language) (from_lang to_lang : Language) :
  get_installed_languages env = Ok langs ->
  find_language langs src = Some from_lang ->
  find_language langs tgt = Some to_lang ->
  get_translation from_lang (code to_lang) = Ok None ->
  ensure_language_pair env src tgt = true /\
  forall text,
    translate_text env src tgt text
    = (text, [WarnArgosError none_has_no_translate]).
Proof.
  intros L F T G. unfold ensure_language_pair, translate_text.
  rewrite L, F, T, G. split; [reflexivity|].
  intro text. rewrite or_empty_id. reflexivity.
Qed.

(** English and Spanish installed, with the package es->en only. *)
Lemma ensure_true_without_translation_witness :
  ensure_language_pair es_en (lit "en") (lit "es") = true /\
  forall text,
    translate_text es_en (lit "en") (lit "es") text
    = (text, [WarnArgosError none_has_no_translate]).
Proof.
  refine (ensure_true_without_translation es_en (lit "en") (lit "es")
            _ _ _ eq_refl eq_refl eq_refl eq_refl).
Defined.

(** ** The speech worker *)

Section WorkerProperties.

Variable lower : str -> str.

Lemma wanted_language_cases (lang_code : str) :
  wanted_language lower lang_code = lit "en" \/
  wanted_language lower lang_code = lit "es".
Proof.
  unfold wanted_language.
  destruct (startswith (lit "en") (lower (or_empty lang_code))); auto.
Qed.

Ltac destruct_matches :=
  repeat match goal with
    | |- context [match ?x with _ => _ end] => destruct x eqn:?
    end.

Lemma pyttsx3_events P rate volume text lang :
  Forall (fun e => from_pyttsx3 e = true)
         (snd (_speak_pyttsx3_ephemeral lower P rate volume text lang)) /\
  (length (filter is_tts_say
             (snd (_speak_pyttsx3_ephemeral lower P rate volume text lang)))
   <= 1)%nat /\
  (PYTTSX3 P = None ->
   _speak_pyttsx3_ephemeral lower P rate volume text lang = (false, [])).
Proof.
  unfold _speak_pyttsx3_ephemeral.
  destruct (PYTTSX3 P) as [m|]; [|simpl; auto].
  split; [|split; [|discriminate]];
    destruct_matches; simpl; repeat constructor.
Qed.

Lemma espeak_events P rate text lang :
  Forall (fun e => from_espeak e = true)
         (snd (_speak_espeakng lower P rate text lang)) /\
  (length (filter is_tts_say (snd (_speak_espeakng lower P rate text lang)))
   <= 1)%nat /\
  (ESPEAKNG P = None -> _speak_espeakng lower P rate text lang = (false, [])) /\
  (fst (_speak_espeakng lower P rate text lang) = true ->
   snd (_speak_espeakng lower P rate text lang)
   = [TtsSay EspeakBackend (Some (wanted_language lower lang))
             (Z.max 80 (Z.min 250 rate)) text]) /\
  (forall v r t, In (TtsSay EspeakBackend v r t)
                    (snd (_speak_espeakng lower P rate text lang)) ->
     v = Some (wanted_language lower lang) /\
     r = Z.max 80 (Z.min 250 rate) /\ t = text).
Proof.
  unfold _speak_espeakng.
  destruct (ESPEAKNG P) as [m|].
  2:{ simpl. split; [constructor|]. split; [lia|]. split; [reflexivity|].
      split; [discriminate|]. intros ev_v ev_r ev_t []. }
  destruct (new_Speaker m) as [spk|e].
  2:{ simpl. split; [repeat constructor|]. split; [lia|].
      split; [discriminate|]. split; [discriminate|].
      intros ev_v ev_r ev_t [H|[]]. discriminate. }
  cbv zeta.
  destruct (speak spk (wanted_language lower lang) (Z.max 80 (Z.min 250 rate))
              text) as [u|e]; simpl.
  - split; [repeat constructor|]. split; [lia|]. split; [discriminate|].
    split; [reflexivity|].
    intros ev_v ev_r ev_t [H|[]]. inversion H; auto.
  - split; [repeat constructor|]. split; [lia|]. split; [discriminate|].
    split; [discriminate|].
    intros ev_v ev_r ev_t [H|[H|[]]]; [inversion H; auto | discriminate].
Qed.

Lemma pyttsx3_not_fallback (e : tts_event) :
  from_pyttsx3 e = true -> is_fallback e = false.
Proof. destruct e; cbn; intro H; try reflexivity; discriminate H. Qed.

Lemma espeak_not_fallback (e : tts_event) :
  from_espeak e = true -> is_fallback e = false.
Proof. destruct e; cbn; intro H; try reflexivity; discriminate H. Qed.

End WorkerProperties.

Lemma filter_disjoint {A : Type} (p r : A -> bool) (l : list A) :
  (forall e, p e = true -> r e = false) ->
  Forall (fun e => p e = true) l -> filter r l = [].
Proof.
  intros Hp H. induction H as [|e l He _ IH]; simpl; [reflexivity|].
  rewrite (Hp e He). exact IH.
Qed.

Lemma pyttsx3_not_espeak (e : tts_event) :
  from_pyttsx3 e = true -> from_espeak e = false.
Proof.
  destruct e as [[|] ? ? ?|[|] ?|? ?]; cbn; intro H;
    try reflexivity; discriminate H.
Qed.

Lemma espeak_not_pyttsx3 (e : tts_event) :
  from_espeak e = true -> from_pyttsx3 e = false.
Proof.
  destruct e as [[|] ? ? ?|[|] ?|? ?]; cbn; intro H;
    try reflexivity; discriminate H.
Qed.

(** X14. For every job the worker takes, the line "[TTS fallback] lang:
    text" is printed exactly when no backend it tried returned success,
    once, with the job's own language and text: pyttsx3 alone on Windows,
    espeak-ng then pyttsx3 elsewhere.  espeak-ng is never used on Windows,
    and pyttsx3 is not tried once espeak-ng has spoken. *)
Theorem worker_speaks_or_prints
    (lower : str -> str) (P : Platform) (rate : Z) (volume : Q)
    (text lang : str) :
  let evs := _run_job lower P rate volume (text, lang) in
  let ok_p := fst (_speak_pyttsx3_ephemeral lower P rate volume text lang) in
  let ok_e := fst (_speak_espeakng lower P rate text lang) in
  filter is_fallback evs
  = (if (if IS_WINDOWS P then negb ok_p else negb ok_e && negb ok_p)
     then [TtsFallback lang text] else []) /\
  (IS_WINDOWS P = true -> filter from_espeak evs = []) /\
  (IS_WINDOWS P = false -> ok_e = true -> filter from_pyttsx3 evs = []).
Proof.
  cbv zeta. unfold _run_job.
  destruct (pyttsx3_events lower P rate volume text lang) as (Fp & _ & _).
  destruct (espeak_events lower P rate text lang) as (Fe & _ & _ & _ & _).
  destruct (_speak_pyttsx3_ephemeral lower P rate volume text lang)
    as [okp evp].
  destruct (_speak_espeakng lower P rate text lang) as [oke eve].
  cbn [fst snd] in *.
  pose proof (filter_disjoint _ _ evp pyttsx3_not_fallback Fp) as Np.
  pose proof (filter_disjoint _ _ eve espeak_not_fallback Fe) as Ne.
  pose proof (filter_disjoint _ _ evp pyttsx3_not_espeak Fp) as Npe.
  pose proof (filter_disjoint _ _ eve espeak_not_pyttsx3 Fe) as Nep.
  destruct (IS_WINDOWS P).
  - destruct okp; cbn [negb]; rewrite ?filter_app, ?Np, ?Npe;
      (split; [reflexivity|]); split; try reflexivity; discriminate.
  - destruct oke, okp; cbn [negb andb];
      rewrite ?filter_app, ?Np, ?Ne, ?Nep;
      (split; [reflexivity|]); split; try reflexivity; try discriminate;
      intros _ H; try discriminate H; reflexivity.
Qed.

(** X15. Whenever espeak-ng is asked to speak, the rate it is given lies
    between 80 and 250 (the worker's rate itself when that lies in the
    range), the voice is "en" or "es", chosen from the language code of the
    job, and the text is the text of a job of the queue. *)
Theorem espeak_rate_and_voice
    (lower : str -> str) (P : Platform) (rate : Z) (volume : Q)
    (jobs : queue) (v : option str) (r : Z) (t : str) :
  In (TtsSay EspeakBackend v r t) (_run lower P rate volume jobs) ->
  (80 <= r <= 250)%Z /\
  ((80 <= rate <= 250)%Z -> r = rate) /\
  (v = Some (lit "en") \/ v = Some (lit "es")) /\
  exists lang, In (t, lang) jobs /\ v = Some (wanted_language lower lang).
Proof.
  unfold _run. intro H. apply in_flat_map in H.
  destruct H as ([text lang] & Hj & He).
  assert (Hin : In (TtsSay EspeakBackend v r t)
                   (snd (_speak_espeakng lower P rate text lang))).
  { unfold _run_job in He.
    destruct (pyttsx3_events lower P rate volume text lang) as (Fp & _ & _).
    destruct (_speak_pyttsx3_ephemeral lower P rate volume text lang)
      as [okp evp].
    destruct (_speak_espeakng lower P rate text lang) as [oke eve].
    cbn [fst snd] in *.
    assert (Np : ~ In (TtsSay EspeakBackend v r t) evp).
    { intro X. rewrite Forall_forall in Fp. specialize (Fp _ X).
      discriminate Fp. }
    destruct (IS_WINDOWS P); [destruct okp | destruct oke; [|destruct okp]];
      repeat (apply in_app_or in He; destruct He as [He|He]);
      try contradiction; try exact He;
      destruct He as [He|[]]; discriminate He. }
  destruct (espeak_events lower P rate text lang) as (_ & _ & _ & _ & Hs).
  destruct (Hs _ _ _ Hin) as (-> & -> & ->).
  split; [lia|]. split; [lia|]. split.
  - destruct (wanted_language_cases lower lang) as [-> | ->]; auto.
  - exists lang. auto.
Qed.

(** X16. [_pick_voice_pyttsx3] looks for "en" when the language code
    begins with "en" once lower-cased and for "es" otherwise (also for an
    empty code).  It returns [None] when the engine cannot list its voices
    or when no voice mentions the wanted language in its name, id or
    languages, and otherwise the id of the first voice that does. *)
Theorem pick_voice_first_match
    (lower : str -> str) (engine : Engine) (lang_code : str) :
  (wanted_language lower lang_code
   = if startswith (lit "en") (lower lang_code) then lit "en" else lit "es") /\
  (forall e, getProperty_voices engine = Raise e ->
     _pick_voice_pyttsx3 lower engine lang_code = None) /\
  (forall voices, getProperty_voices engine = Ok voices ->
     (forall v, In v voices ->
        voice_matches lower (wanted_language lower lang_code) v = false) ->
     _pick_voice_pyttsx3 lower engine lang_code = None) /\
  (forall before v after,
     getProperty_voices engine = Ok (before ++ v :: after) ->
     (forall u, In u before ->
        voice_matches lower (wanted_language lower lang_code) u = false) ->
     voice_matches lower (wanted_language lower lang_code) v = true ->
     _pick_voice_pyttsx3 lower engine lang_code = voice_id v).
Proof.
  unfold _pick_voice_pyttsx3. split; [|split; [|split]].
  - unfold wanted_language. rewrite or_empty_id. reflexivity.
  - intros e ->. reflexivity.
  - intros voices -> H. induction voices as [|v l IH]; simpl; [reflexivity|].
    rewrite (H v (or_introl eq_refl)). apply IH.
    intros u Hu. apply H. right. exact Hu.
  - intros before v after -> H M.
    induction before as [|u l IH]; simpl.
    + rewrite M. reflexivity.
    + rewrite (H u (or_introl eq_refl)). apply IH.
      intros w Hw. apply H. right. exact Hw.
Qed.

(** X17. The conditional imports never bind both backends: espeak-ng is
    bound only off Windows, and pyttsx3 only on Windows or when espeak-ng
    could not be imported.  So at most one backend is ever asked to speak a
    job, and where espeak-ng was imported a job it fails to speak goes
    straight to the printed fallback, pyttsx3 is not tried. *)
Theorem one_backend_bound
    (lower : str -> str) (is_windows : bool)
    (import_pyttsx3 : result Pyttsx3) (import_espeakng : result EspeakNg)
    (rate : Z) (volume : Q) (text lang : str) :
  let P := import_backends is_windows import_pyttsx3 import_espeakng in
  let evs := _run_job lower P rate volume (text, lang) in
  IS_WINDOWS P = is_windows /\
  (PYTTSX3 P = None \/ ESPEAKNG P = None) /\
  (length (filter is_tts_say evs) <= 1)%nat /\
  (forall m, is_windows = false -> import_espeakng = Ok m ->
     fst (_speak_espeakng lower P rate text lang) = false ->
     In (TtsFallback lang text) evs /\ filter from_pyttsx3 evs = []).
Proof.
  cbv zeta.
  set (P := import_backends is_windows import_pyttsx3 import_espeakng).
  assert (W : IS_WINDOWS P = is_windows).
  { unfold P, import_backends.
    destruct is_windows; [|destruct import_espeakng]; reflexivity. }
  assert (B : PYTTSX3 P = None \/ ESPEAKNG P = None).
  { unfold P, import_backends.
    destruct is_windows; [|destruct import_espeakng]; simpl; auto. }
  split; [exact W|]. split; [exact B|].
  destruct (pyttsx3_events lower P rate volume text lang) as (Fp & Lp & Zp).
  destruct (espeak_events lower P rate text lang) as (Fe & Le & Ze & _ & _).
  split.
  - unfold _run_job. destruct B as [B|B].
    + rewrite (Zp B).
      destruct (_speak_espeakng lower P rate text lang) as [oke eve].
      cbn [snd] in Le.
      destruct (IS_WINDOWS P); [simpl; lia|].
      destruct oke; rewrite ?filter_app, ?length_app; simpl; lia.
    + rewrite (Ze B).
      destruct (_speak_pyttsx3_ephemeral lower P rate volume text lang)
        as [okp evp].
      cbn [snd] in Lp.
      destruct (IS_WINDOWS P); destruct okp;
        rewrite ?filter_app, ?length_app; simpl; lia.
  - intros m Hw He Hf.
    assert (Np : PYTTSX3 P = None).
    { unfold P, import_backends. rewrite Hw, He. reflexivity. }
    unfold _run_job. rewrite W, Hw, (Zp Np).
    destruct (_speak_espeakng lower P rate text lang) as [oke eve].
    cbn [fst snd] in *. subst oke. split.
    + apply in_or_app. right. simpl. auto.
    + rewrite !filter_app.
      rewrite (filter_disjoint _ _ eve espeak_not_pyttsx3 Fe). reflexivity.
Qed.

(** ** Examples for the further properties *)

Section MoreExamples.

#[local] Existing Instance talker.

Lemma first_words_run :
  run_frames (es_to_en true) es_en initial [] first_words
  = Some ({| rec := 1%nat; last_voice_time := 1000; got_voice := true;
             partial_buf_text := lit "hola mundo";
             partial_last_emit := 1000 |},
          [(lit "en:hola mundo", lit "en")],
          [[EvAccept loud; EvPartialResult; EvTranslate (lit "hola mundo");
            EvSay (lit "en:hola mundo") (lit "en") 0]]).
Proof.
  rewrite (run_frames_classified _ _ _ _ _ [true]).
  - vm_compute. reflexivity.
  - repeat constructor. exact loud_is_speech.
Qed.

Lemma two_words_run :
  run_frames (es_to_en true) es_en initial [] two_words
  = Some ({| rec := 2%nat; last_voice_time := 1002; got_voice := true;
             partial_buf_text := lit "hola mundo otra vez";
             partial_last_emit := 1002 |},
          [(lit "en:hola mundo", lit "en");
           (lit "en:hola mundo otra vez", lit "en")],
          [] ++ [EvAccept loud; EvPartialResult; EvTranslate (lit "hola mundo");
                 EvSay (lit "en:hola mundo") (lit "en") 0]
             :: [] ++ [EvAccept loud; EvPartialResult;
                       EvTranslate (lit "hola mundo otra vez");
                       EvSay (lit "en:hola mundo otra vez") (lit "en") 0]
             :: []).
Proof.
  rewrite (run_frames_classified _ _ _ _ _ [true; true]).
  - vm_compute. reflexivity.
  - repeat constructor; exact loud_is_speech.
Qed.

Lemma queue_holds_speakable_jobs_witness :
  Forall speakable [(lit "en:hola mundo", lit "en")].
Proof.
  apply (queue_holds_speakable_jobs _ _ _ _ _ _ _ _ first_words_run).
  constructor.
Defined.

Lemma idle_frames_change_nothing_witness :
  run_frames (es_to_en true) es_en initial [] [(quiet, 1000); (quiet, 1002)]
  = Some ({| rec := fold_left AcceptWaveform
                      (map fst [(quiet, 1000); (quiet, 1002)]) (rec initial);
             last_voice_time := last_voice_time initial;
             got_voice := got_voice initial;
             partial_buf_text := partial_buf_text initial;
             partial_last_emit := partial_last_emit initial |},
          [], map (fun x => [EvAccept (fst x)]) [(quiet, 1000); (quiet, 1002)]).
Proof.
  apply (idle_frames_change_nothing (es_to_en true) es_en initial []
           [(quiet, 1000); (quiet, 1002)]).
  - repeat constructor; exact quiet_is_silence.
  - left. reflexivity.
Defined.

Lemma every_frame_fed_once_first_witness :
  exists st' q' trace,
    run_frames (es_to_en true) es_en initial [] dialogue = Some (st', q', trace) /\
    map (@hd_error event) trace
    = map (fun x => Some (EvAccept (fst x))) dialogue /\
    Forall (fun evs => count is_accept evs = 1%nat) trace.
Proof.
  destruct dialogue_runs as [[[st' q'] trace] R].
  exists st', q', trace. split; [exact R|].
  exact (every_frame_fed_once_first _ _ _ _ _ _ _ _ R).
Defined.

Lemma dialogue_runs_without_partials :
  exists r, run_frames (es_to_en false) es_en initial [] dialogue = Some r.
Proof. rewrite (run_frames_classified _ _ _ _ _ _ dialogue_classes). eauto. Qed.

Lemma no_partials_when_disabled_witness :
  exists st' q' trace,
    run_frames (es_to_en false) es_en initial [] dialogue = Some (st', q', trace) /\
    Forall (fun evs => ~ In EvPartialResult evs /\
                       forall t l p, In (EvSay t l p) evs -> p = 1%Z) trace /\
    partials_emitted trace = [].
Proof.
  destruct dialogue_runs_without_partials as [[[st' q'] trace] R].
  exists st', q', trace. split; [exact R|].
  exact (no_partials_when_disabled (es_to_en false) es_en _ _ _ _ _ _
           eq_refl R).
Defined.

(** The words were heard at 1000; a silence frame one second later. *)
Lemma finalize_speaks_final_alone_witness :
  let st : Loop nat :=
    {| rec := 1%nat; last_voice_time := 1000; got_voice := true;
       partial_buf_text := lit "hola mundo"; partial_last_emit := 1000 |} in
  let q : queue := [(lit "en:hola mundo", lit "en")] in
  exists q' evs,
    on_frame (es_to_en true) es_en st q quiet 1001
    = Some (set_voice_time (last_voice_time st) initial, q', evs) /\
    let final :=
      strip (opt_or_empty (fst (FinalResult (AcceptWaveform (rec st) quiet)))) in
    let out := fst (translate_text es_en (src (es_to_en true))
                      (tgt (es_to_en true)) final) in
    (final = [] ->
     q' = q /\ evs = [EvAccept quiet; EvFinalResult; EvNewRecognizer]) /\
    (final <> [] ->
     In (EvTranslate final) evs /\
     In (EvSay out (tgt (es_to_en true)) 1) evs /\
     q' = say q out (tgt (es_to_en true)) 1 /\
     (strip out <> [] -> q' = [(strip out, tgt (es_to_en true))]) /\
     (strip out = [] -> q' = q)).
Proof.
  cbv zeta.
  apply (finalize_speaks_final_alone (es_to_en true) es_en
           {| rec := 1%nat; last_voice_time := 1000; got_voice := true;
              partial_buf_text := lit "hola mundo"; partial_last_emit := 1000 |}
           [(lit "en:hola mundo", lit "en")] quiet 1001).
  - exact quiet_is_silence.
  - reflexivity.
  - apply Qle_bool_iff. reflexivity.
Defined.

Lemma queue_kept_until_finalize_witness :
  exists added,
    [(lit "en:hola mundo", lit "en")] = [] ++ added /\
    (length added <= length first_words)%nat.
Proof.
  apply (queue_kept_until_finalize _ _ _ _ _ _ _ _ first_words_run).
  constructor; [|constructor].
  unfold finalizes. simpl. intros [H|[H|[H|[H|[]]]]]; discriminate H.
Defined.

Lemma partials_spaced_by_interval_witness :
  PARTIAL_EVERY < elapsed_ms (snd (loud, 1002)) (snd (loud, 1000)).
Proof.
  apply (partials_spaced_by_interval (es_to_en true) es_en initial []
           [] (loud, 1000) [] (loud, 1002) [] _ _ [] _ [] _ []
           (lit "hola mundo") (lit "hola mundo otra vez") two_words_run).
  - reflexivity.
  - reflexivity.
  - split; simpl; auto.
  - split; simpl; auto.
  - constructor.
Defined.

End MoreExamples.

Lemma espeak_rate_and_voice_witness :
  (80 <= 250 <= 250)%Z /\
  ((80 <= 300 <= 250)%Z -> 250%Z = 300%Z) /\
  (Some (lit "en") = Some (lit "en") \/ Some (lit "en") = Some (lit "es")) /\
  exists lang, In (lit "hello", lang) [(lit "hello", lit "EN-us")] /\
               Some (lit "en") = Some (wanted_language ascii_lower lang).
Proof.
  apply (espeak_rate_and_voice ascii_lower linux_espeak 300 1
           [(lit "hello", lit "EN-us")] (Some (lit "en")) 250 (lit "hello")).
  vm_compute. auto.
Defined.

Example chunk_of_two_frames_and_a_half :
  length (frames_of_chunk (loud ++ quiet ++ firstn 480 loud) (fun _ => 1000))
  = 2%nat.
Proof.
  rewrite (proj1 (chunk_cut_into_whole_frames _ _)). vm_compute. reflexivity.
Qed.

(** X18. At start-up and right after a phrase was closed nothing holds a
    partial back but its length: with partials enabled and a clock reading
    beyond 1.2 s, a speech frame emits its candidate partial exactly when
    the candidate has at least [MIN_PARTIAL_CHARS] characters. *)
Theorem first_partial_of_phrase
    {session : Type} {vosk : Recognizer session} (args : Args) (tr : Argos)
    (t : Q) (q : queue) (frame : bytes) (now : Q) :
  partials args = true ->
  is_speech_energy frame = Some true ->
  PARTIAL_EVERY < elapsed_ms now 0 ->
  exists st' q' evs,
    on_frame args tr (set_voice_time t initial) q frame now
    = Some (st', q', evs) /\
    ((MIN_PARTIAL_CHARS <= length (candidate_partial initial frame))%nat
     <-> emits_partial evs (candidate_partial initial frame)).
Proof.
  intros P S I0.
  assert (I : interval_elapsed (set_voice_time t initial) now) by exact I0.
  rewrite (on_frame_classified args tr (set_voice_time t initial) q now S).
  destruct (segment_step args tr (set_voice_time t initial) q true frame now)
    as [[st' q'] evs] eqn:H.
  exists st', q', evs. split; [reflexivity|].
  change (candidate_partial initial frame)
    with (candidate_partial (set_voice_time t initial) frame).
  destruct (emission_dec args (set_voice_time t initial) frame now)
    as [(_ & _ & W)|N].
  - rewrite (step_partial_emitted args tr _ q frame now P I W) in H.
    inversion H; subst; clear H. split.
    + intros _. split; simpl; auto.
    + intros _. apply W.
  - destruct (step_partial_withheld args tr _ _ _ _ _ _ _ H N)
      as (_ & _ & _ & E).
    split.
    + intro L. exfalso. apply N. split; [exact P|]. split; [exact I|].
      split; [|exact L].
      intro E0. rewrite E0 in L. simpl in L.
      unfold MIN_PARTIAL_CHARS in L. lia.
    + intros [HP HT]. destruct E as [-> | ->]; in_events.
Qed.

Section FirstPartial.

#[local] Existing Instance talker.

Lemma first_partial_of_phrase_witness :
  exists st' q' evs,
    on_frame (es_to_en true) es_en (set_voice_time 1000 initial) [] loud 1002
    = Some (st', q', evs) /\
    ((MIN_PARTIAL_CHARS <= length (candidate_partial initial loud))%nat
     <-> emits_partial evs (candidate_partial initial loud)).
Proof.
  apply (first_partial_of_phrase (es_to_en true) es_en 1000 [] loud 1002).
  - reflexivity.
  - exact loud_is_speech.
  - reflexivity.
Defined.

End FirstPartial.
